(** * ctxzap: context-resident zap fields and their merge

    A shallow embedding of the core of the [ctxzap] package:
    - [MergeFields]: the four loops over a [map[string]zap.Field];
    - [WithFields] and [FieldsFromContext] (context.go): the field store kept
      inside a [context.Context].

    Slices are references into a heap of backing arrays, so that the aliasing
    the code creates (a slice stored in a context is the caller's slice, the
    slice handed out by [FieldsFromContext] is a fresh one) is part of the
    model.  A Go [panic] is an explicit outcome of every operation. *)

From stdpp Require Import gmap strings list fin_maps.
From Stdlib Require Import ZArith.

Set Default Proof Using "Type".

(* ===================================================================== *)
(** ** zap.Field                                                          *)
(* ===================================================================== *)

(** Modelled from the spec: the value-kind tag of a field ([zapcore.FieldType]
    is declared in go.uber.org/zap, outside this repository).  The kinds the
    repository's tests build are named; every other kind is [OtherType]. *)
Inductive FieldType : Type :=
  | UnknownType
  | BoolType
  | Int64Type
  | StringType
  | OtherType (tag : nat).

(** Modelled from the spec: [zap.Field] is declared in go.uber.org/zap, outside
    this repository.  A field is a string key, a value-kind tag and a value;
    the value is spread, as in zap, over an integer, a string and a boxed
    [interface{}], the last one abstracted to an opaque token ([None] is
    Go's [nil]). *)
Record Field : Type := mkField {
  Key : string;
  FType : FieldType;
  Integer : Z;
  Str : string;
  Interface : option nat
}.

#[global] Instance FieldType_eq_dec : EqDecision FieldType.
Proof. solve_decision. Defined.

#[global] Instance Field_eq_dec : EqDecision Field.
Proof. solve_decision. Defined.

(** Go's zero value of [zap.Field], what [make] fills a new array with. *)
Definition zeroField : Field := mkField "" UnknownType 0 "" None.

(** The constructors the tests and the spec's scenarios use. *)
Definition zap_String (key val : string) : Field := mkField key StringType 0 val None.
Definition zap_Int (key : string) (val : Z) : Field := mkField key Int64Type val "" None.
Definition zap_Bool (key : string) (val : bool) : Field :=
  mkField key BoolType (if val then 1 else 0)%Z "" None.

(** Modelled from the spec: [Field.Equals] (go.uber.org/zap) compares the kind,
    then the key, then the value. *)
Definition Equals (f other : Field) : bool :=
  if negb (bool_decide (FType f = FType other)) then false
  else if negb (bool_decide (Key f = Key other)) then false
  else bool_decide (Integer f = Integer other)
       && bool_decide (Str f = Str other)
       && bool_decide (Interface f = Interface other).

(** The keys of a collection, in order, and "no two fields share a key". *)
Definition keys (fs : list Field) : list string := Key <$> fs.
Definition unique_keyed (fs : list Field) : Prop := NoDup (keys fs).

(** The fields of [fs] that carry key [k]. *)
Definition with_key (k : string) (fs : list Field) : list Field :=
  filter (λ f, Key f = k) fs.

(* ===================================================================== *)
(** ** The loops of MergeFields                                           *)
(* ===================================================================== *)

(** [for _, field := range fs { fieldMap[field.Key] = field }]
    (lines 20-22 and 25-27 of the file of [MergeFields]). *)
Fixpoint add_fields (fs : list Field) (fieldMap : gmap string Field)
  : gmap string Field :=
  match fs with
  | [] => fieldMap
  | field :: rest => add_fields rest (<[Key field := field]> fieldMap)
  end.

(** The third loop (lines 32-37): an existing field is appended when the map
    still holds its key and the field held there [Equals] it; its key is then
    deleted from the map. *)
Fixpoint keep_existing (fs : list Field) (fieldMap : gmap string Field)
    (result : list Field) : list Field * gmap string Field :=
  match fs with
  | [] => (result, fieldMap)
  | field :: rest =>
      match fieldMap !! Key field with
      | Some f =>
          if Equals f field
          then keep_existing rest (delete (Key field) fieldMap) (result ++ [field])
          else keep_existing rest fieldMap result
      | None => keep_existing rest fieldMap result
      end
  end.

(** The fourth loop (lines 39-44): a new field is appended when the map still
    holds its key, which is then deleted. *)
Fixpoint add_new (fs : list Field) (fieldMap : gmap string Field)
    (result : list Field) : list Field * gmap string Field :=
  match fs with
  | [] => (result, fieldMap)
  | field :: rest =>
      match fieldMap !! Key field with
      | Some _ => add_new rest (delete (Key field) fieldMap) (result ++ [field])
      | None => add_new rest fieldMap result
      end
  end.

(** Lines 17-46 on the elements of the two slices: the slow path. *)
Definition merge_loops (existingFields newFields : list Field) : list Field :=
  let fieldMap := add_fields existingFields ∅ in
  let fieldMap := add_fields newFields fieldMap in
  let '(result, fieldMap) := keep_existing existingFields fieldMap [] in
  let '(result, _) := add_new newFields fieldMap result in
  result.

(** What [MergeFields] returns, as a sequence of fields: the two early returns
    on an empty argument, then the loops. *)
Definition merged (existingFields newFields : list Field) : list Field :=
  if bool_decide (length existingFields = 0) then newFields
  else if bool_decide (length newFields = 0) then existingFields
  else merge_loops existingFields newFields.

(** The map after the first two loops. *)
Definition merge_map (existingFields newFields : list Field) : gmap string Field :=
  add_fields newFields (add_fields existingFields ∅).

(* ===================================================================== *)
(** ** Memory: slices, backing arrays, panics                             *)
(* ===================================================================== *)

(** A slice value is [nil] or a reference to its backing array.  The package
    never re-slices, so the elements of a slice are the whole array. *)
Definition loc := nat.

Inductive slice : Type :=
  | nil_slice
  | SliceAt (l : loc).

#[global] Instance slice_eq_dec : EqDecision slice.
Proof. solve_decision. Defined.

(** The program state: the backing arrays, and the number of context nodes
    allocated so far (the identity of the next one). *)
Record state : Type := mkState {
  heap : gmap loc (list Field);
  next_ctx : nat
}.

Definition set_heap (h : gmap loc (list Field)) (σ : state) : state :=
  mkState h (next_ctx σ).

(** An operation returns a value and a new state, or panics. *)
Inductive outcome (A : Type) : Type :=
  | Ok (a : A) (σ : state)
  | Panic (msg : string).
Arguments Ok {A} a σ.
Arguments Panic {A} msg.

Definition M (A : Type) : Type := state → outcome A.

Definition ret {A} (a : A) : M A := λ σ, Ok a σ.
Definition panic {A} (msg : string) : M A := λ _, Panic msg.
Definition bind {A B} (c : M A) (k : A → M B) : M B :=
  λ σ, match c σ with
       | Ok a σ' => k a σ'
       | Panic msg => Panic msg
       end.

Notation "'do' x <- c ; k" := (bind c (λ x, k))
  (at level 10, x name, c at level 100, k at level 200).

(** The elements a slice denotes in a state. *)
Definition load (σ : state) (s : slice) : list Field :=
  match s with
  | nil_slice => []
  | SliceAt l => default [] (heap σ !! l)
  end.

(** [len(s)] and the elements a [range] loop visits. *)
Definition len (s : slice) : M nat := λ σ, Ok (length (load σ s)) σ.
Definition elems (s : slice) : M (list Field) := λ σ, Ok (load σ s) σ.

(** A new backing array at an address no array occupies. *)
Definition alloc (arr : list Field) : M slice :=
  λ σ, let l := fresh (dom (heap σ)) in
       Ok (SliceAt l) (set_heap (<[l := arr]> (heap σ)) σ).

(** [make([]zap.Field, n)]. *)
Definition make (n : nat) : M slice := alloc (replicate n zeroField).

(** [copy(dst, src)]: the first [min(len(dst), len(src))] elements. *)
Definition copy (dst src : slice) : M nat :=
  λ σ, match dst with
       | nil_slice => Ok 0 σ
       | SliceAt l =>
           match heap σ !! l with
           | None => Ok 0 σ
           | Some d =>
               let s := load σ src in
               let n := length d `min` length s in
               Ok n (set_heap (<[l := take n s ++ drop n d]> (heap σ)) σ)
           end
       end.

(** What a caller does to a slice it holds: it overwrites the backing array. *)
Definition overwrite (s : slice) (arr : list Field) (σ : state) : state :=
  match s with
  | nil_slice => σ
  | SliceAt l => set_heap (<[l := arr]> (heap σ)) σ
  end.

(* ===================================================================== *)
(** ** MergeFields                                                        *)
(* ===================================================================== *)

(** [result] is a new array that nothing else references before the return:
    the loops run on the elements of the two slices and the array is
    allocated with its final contents.  The early returns hand back the
    argument slice itself, not a copy. *)
Definition MergeFields (existingFields newFields : slice) : M slice :=
  do n <- len existingFields;
  if bool_decide (n = 0) then ret newFields else
  do n' <- len newFields;
  if bool_decide (n' = 0) then ret existingFields else
  do es <- elems existingFields;
  do ns <- elems newFields;
  alloc (merge_loops es ns).

(* ===================================================================== *)
(** ** context.Context                                                    *)
(* ===================================================================== *)

(** The keys and values a context can carry: the package's own [fieldsKey]
    (of the unexported type [contextKey]) and the keys of other packages;
    a [[]zap.Field] or a value of another type. *)
Inductive ctxKey : Type :=
  | fieldsKey
  | otherKey (n : nat).

Inductive any : Type :=
  | AnyFields (s : slice)
  | AnyOther (v : nat).

#[global] Instance ctxKey_eq_dec : EqDecision ctxKey.
Proof. solve_decision. Defined.

(** The contexts of Go's standard library: immutable nodes with a parent
    link.  [valueCtx] is what [context.WithValue] builds; [cancelCtx] stands
    for the nodes of [WithCancel], [WithDeadline] and [WithTimeout], which
    hand [Value] to their parent.  Every node carries its identity. *)
Inductive Context : Type :=
  | Background
  | valueCtx (id : nat) (parent : Context) (key : ctxKey) (val : any)
  | cancelCtx (id : nat) (parent : Context).

(** A [context.Context] interface value: [None] is Go's [nil]. *)
Definition handle := option Context.

(** [c.Value(key)] on a context that exists: the nearest node with that key. *)
Fixpoint Value (c : Context) (key : ctxKey) : option any :=
  match c with
  | Background => None
  | valueCtx _ parent k val => if decide (k = key) then Some val else Value parent key
  | cancelCtx _ parent => Value parent key
  end.

(** The method call [ctx.Value(key)]: on a nil interface it panics. *)
Definition ctx_Value (ctx : handle) (key : ctxKey) : M (option any) :=
  match ctx with
  | None => panic "invalid memory address or nil pointer dereference"
  | Some c => ret (Value c key)
  end.

(** [context.WithValue]: a new node under [parent]; the standard library
    panics on a nil parent. *)
Definition WithValue (parent : handle) (key : ctxKey) (val : any) : M handle :=
  match parent with
  | None => panic "cannot create context from nil parent"
  | Some p =>
      λ σ, Ok (Some (valueCtx (next_ctx σ) p key val))
              (mkState (heap σ) (S (next_ctx σ)))
  end.

(* ===================================================================== *)
(** ** WithFields and FieldsFromContext (context.go)                      *)
(* ===================================================================== *)

Definition FieldsFromContext (ctx : handle) : M slice :=
  if bool_decide (ctx = None) then ret nil_slice else
  do v <- ctx_Value ctx fieldsKey;
  match v with
  | Some (AnyFields fields) =>
      do n <- len fields;
      do result <- make n;
      do _ <- copy result fields;
      ret result
  | _ => ret nil_slice
  end.

Definition WithFields (ctx : handle) (fields : slice) : M handle :=
  do n <- len fields;
  if bool_decide (n = 0) then ret ctx else
  do existingFields <- FieldsFromContext ctx;
  do m <- len existingFields;
  if bool_decide (m = 0) then WithValue ctx fieldsKey (AnyFields fields) else
  do mergedFields <- MergeFields existingFields fields;
  WithValue ctx fieldsKey (AnyFields mergedFields).

(* ===================================================================== *)
(** ** Logger (logger.go)                                                 *)
(* ===================================================================== *)

(** The severities of the seven logging methods. *)
Inductive Level : Type :=
  | DebugLevel
  | InfoLevel
  | WarnLevel
  | ErrorLevel
  | DPanicLevel
  | PanicLevel
  | FatalLevel.

(** Modelled from the spec: [*zap.Logger] is declared in go.uber.org/zap,
    outside this repository; it is the "underlying structured-logging sink"
    and is kept as an opaque reference. *)
Definition zap_Logger := nat.

(** [type Logger struct { *zap.Logger }] and [New]; a [*Logger] is nil or
    points to such a struct. *)
Record Logger : Type := mkLogger { embedded : zap_Logger }.

Definition New (zapLogger : zap_Logger) : option Logger :=
  Some (mkLogger zapLogger).

(** What a logging method does in the end is one call on the wrapped
    logger, [l.Logger.<Level>(msg, fields...)]: the call is recorded with
    the slice it passes (a variadic call with [fields...] passes the slice
    itself).  What zap then does with it is outside this package. *)
Record zapCall : Type := mkCall {
  call_logger : zap_Logger;
  call_level : Level;
  call_msg : string;
  call_fields : slice
}.

(** [l.Logger.<Level>(msg, fields...)]: reading the embedded field of a nil
    [*Logger] panics. *)
Definition zap_call (l : option Logger) (level : Level) (msg : string)
    (fields : slice) : M zapCall :=
  match l with
  | None => panic "invalid memory address or nil pointer dereference"
  | Some lg => ret (mkCall (embedded lg) level msg fields)
  end.

(** The seven methods, each with its own copy of the body, as in the
    source. *)
Definition Logger_Debug (l : option Logger) (ctx : handle) (msg : string)
    (fields : slice) : M zapCall :=
  do contextFields <- FieldsFromContext ctx;
  do n <- len contextFields;
  if bool_decide (n = 0) then zap_call l DebugLevel msg fields else
  do allFields <- MergeFields contextFields fields;
  zap_call l DebugLevel msg allFields.

Definition Logger_Info (l : option Logger) (ctx : handle) (msg : string)
    (fields : slice) : M zapCall :=
  do contextFields <- FieldsFromContext ctx;
  do n <- len contextFields;
  if bool_decide (n = 0) then zap_call l InfoLevel msg fields else
  do allFields <- MergeFields contextFields fields;
  zap_call l InfoLevel msg allFields.

Definition Logger_Warn (l : option Logger) (ctx : handle) (msg : string)
    (fields : slice) : M zapCall :=
  do contextFields <- FieldsFromContext ctx;
  do n <- len contextFields;
  if bool_decide (n = 0) then zap_call l WarnLevel msg fields else
  do allFields <- MergeFields contextFields fields;
  zap_call l WarnLevel msg allFields.

Definition Logger_Error (l : option Logger) (ctx : handle) (msg : string)
    (fields : slice) : M zapCall :=
  do contextFields <- FieldsFromContext ctx;
  do n <- len contextFields;
  if bool_decide (n = 0) then zap_call l ErrorLevel msg fields else
  do allFields <- MergeFields contextFields fields;
  zap_call l ErrorLevel msg allFields.

Definition Logger_DPanic (l : option Logger) (ctx : handle) (msg : string)
    (fields : slice) : M zapCall :=
  do contextFields <- FieldsFromContext ctx;
  do n <- len contextFields;
  if bool_decide (n = 0) then zap_call l DPanicLevel msg fields else
  do allFields <- MergeFields contextFields fields;
  zap_call l DPanicLevel msg allFields.

Definition Logger_Panic (l : option Logger) (ctx : handle) (msg : string)
    (fields : slice) : M zapCall :=
  do contextFields <- FieldsFromContext ctx;
  do n <- len contextFields;
  if bool_decide (n = 0) then zap_call l PanicLevel msg fields else
  do allFields <- MergeFields contextFields fields;
  zap_call l PanicLevel msg allFields.

Definition Logger_Fatal (l : option Logger) (ctx : handle) (msg : string)
    (fields : slice) : M zapCall :=
  do contextFields <- FieldsFromContext ctx;
  do n <- len contextFields;
  if bool_decide (n = 0) then zap_call l FatalLevel msg fields else
  do allFields <- MergeFields contextFields fields;
  zap_call l FatalLevel msg allFields.

(** The method of a severity. *)
Definition Logger_log (level : Level)
  : option Logger → handle → string → slice → M zapCall :=
  match level with
  | DebugLevel => Logger_Debug
  | InfoLevel => Logger_Info
  | WarnLevel => Logger_Warn
  | ErrorLevel => Logger_Error
  | DPanicLevel => Logger_DPanic
  | PanicLevel => Logger_Panic
  | FatalLevel => Logger_Fatal
  end.

(* ===================================================================== *)
(** ** Reference formulations                                             *)
(* ===================================================================== *)

(** The spec's two-pass formulation (§4.1, rule 3): the existing fields
    whose key does not occur in [incoming], then all of [incoming]. *)
Definition two_pass (existing incoming : list Field) : list Field :=
  filter (λ f, Key f ∉ keys incoming) existing ++ incoming.

(** The two passes the code makes on unique-keyed arguments: an existing
    field stays when its key is not in [incoming] or when [incoming] holds
    that very field; an incoming field follows unless [existing] holds it. *)
Definition two_pass_equal_kept (existing incoming : list Field) : list Field :=
  filter (λ f, Key f ∉ keys incoming ∨ f ∈ incoming) existing
  ++ filter (λ f, f ∉ existing) incoming.

(* ===================================================================== *)
(** ** Reading a state                                                    *)
(* ===================================================================== *)

(** The slice a handle carries under [fieldsKey], if any: what the type
    assertion [ctx.Value(fieldsKey).([]zap.Field)] yields. *)
Definition stored (ctx : handle) : option slice :=
  match ctx with
  | None => None
  | Some c =>
      match Value c fieldsKey with
      | Some (AnyFields s) => Some s
      | _ => None
      end
  end.

(** The field collection associated with a handle in a state. *)
Definition fields_of (σ : state) (ctx : handle) : list Field :=
  match stored ctx with
  | Some s => load σ s
  | None => []
  end.

(** A slice that is nil or whose backing array exists; a handle whose
    stored slice is such.  Go's memory safety gives this for every value
    a program holds. *)
Definition allocated (σ : state) (s : slice) : Prop :=
  match s with
  | nil_slice => True
  | SliceAt l => is_Some (heap σ !! l)
  end.

Definition handle_ok (σ : state) (ctx : handle) : Prop :=
  match stored ctx with
  | Some s => allocated σ s
  | None => True
  end.

(** [σ'] has every array of [σ], unchanged, and maybe more. *)
Definition extends (σ σ' : state) : Prop := heap σ ⊆ heap σ'.

(* ===================================================================== *)
(** ** Concrete states                                                    *)
(* ===================================================================== *)

(** A state whose arrays are the given ones, at addresses 0, 1, 2, ...;
    no context node has been created. *)
Definition state_of (arrays : list (list Field)) : state :=
  mkState (list_to_map (zip (seq 0 (length arrays)) arrays)) 0.

Ltac solve_unique_keyed :=
  unfold unique_keyed; apply (bool_decide_unpack _); vm_compute; exact I.

Ltac run_concrete := vm_compute; reflexivity.

(* ===================================================================== *)
(** ** Fields and keys                                                    *)
(* ===================================================================== *)

Lemma Equals_eq (f other : Field) : Equals f other = true ↔ f = other.
Proof.
  unfold Equals. destruct f as [k t i s v], other as [k' t' i' s' v']; simpl.
  destruct (decide (t = t')) as [->|Ht];
    [rewrite bool_decide_eq_true_2 by done|rewrite bool_decide_eq_false_2 by done];
    simpl; [|split; [done|congruence]].
  destruct (decide (k = k')) as [->|Hk];
    [rewrite bool_decide_eq_true_2 by done|rewrite bool_decide_eq_false_2 by done];
    simpl; [|split; [done|congruence]].
  rewrite !andb_true_iff, !bool_decide_eq_true. split.
  - intros [[-> ->] ->]. done.
  - intros [= -> -> ->]. done.
Qed.

Lemma Equals_neq (f other : Field) : Equals f other = false ↔ f ≠ other.
Proof.
  rewrite <- Equals_eq. destruct (Equals f other); split; congruence.
Qed.

Lemma elem_of_keys (k : string) (fs : list Field) :
  k ∈ keys fs ↔ ∃ f, f ∈ fs ∧ Key f = k.
Proof.
  unfold keys. rewrite list_elem_of_fmap. split.
  - intros (f & -> & Hf). eauto.
  - intros (f & Hf & <-). eauto.
Qed.

Lemma key_elem_of (f : Field) (fs : list Field) : f ∈ fs → Key f ∈ keys fs.
Proof. intros. apply elem_of_keys. eauto. Qed.

Lemma keys_app (l1 l2 : list Field) : keys (l1 ++ l2) = keys l1 ++ keys l2.
Proof. apply fmap_app. Qed.

(** In a unique-keyed collection a key determines its field. *)
Lemma unique_keyed_inj (fs : list Field) (f g : Field) :
  unique_keyed fs → f ∈ fs → g ∈ fs → Key f = Key g → f = g.
Proof.
  unfold unique_keyed, keys. induction fs as [|x fs IH]; simpl.
  - intros _ Hf. by apply elem_of_nil in Hf.
  - rewrite NoDup_cons. intros [Hx Hnd] Hf Hg Hk.
    apply elem_of_cons in Hf as [->|Hf]; apply elem_of_cons in Hg as [->|Hg].
    + done.
    + exfalso. apply Hx. rewrite Hk. by apply key_elem_of.
    + exfalso. apply Hx. rewrite <- Hk. by apply key_elem_of.
    + by apply IH.
Qed.

(** With unique keys, the fields that carry a key of the collection are one. *)
Lemma filter_none {A} (P : A → Prop) `{∀ x, Decision (P x)} (l : list A) :
  (∀ x, x ∈ l → ¬ P x) → filter P l = [].
Proof.
  induction l as [|x l IH]; intros HP; [done|].
  rewrite filter_cons_False by (apply HP; by left).
  apply IH. intros y Hy. apply HP. by right.
Qed.

Lemma with_key_unique (fs : list Field) (f : Field) :
  unique_keyed fs → f ∈ fs → with_key (Key f) fs = [f].
Proof.
  unfold unique_keyed, keys, with_key. induction fs as [|x fs IH]; simpl.
  - intros _ Hf. by apply elem_of_nil in Hf.
  - rewrite NoDup_cons. intros [Hx Hnd] Hf.
    apply elem_of_cons in Hf as [->|Hf].
    + rewrite filter_cons_True by done. f_equal.
      apply filter_none. intros g Hg Hk.
      apply Hx. rewrite <- Hk. by apply key_elem_of.
    + rewrite filter_cons_False; [by apply IH|].
      intros Hk. apply Hx. rewrite Hk. by apply key_elem_of.
Qed.

Lemma filter_ext_elem {A} (P Q : A → Prop) `{∀ x, Decision (P x)}
    `{∀ x, Decision (Q x)} (l : list A) :
  (∀ x, x ∈ l → (P x ↔ Q x)) → filter P l = filter Q l.
Proof.
  induction l as [|x l IH]; intros HPQ; [done|].
  rewrite !filter_cons.
  rewrite IH by (intros y Hy; apply HPQ; by right).
  destruct (decide (P x)) as [HP|HP], (decide (Q x)) as [HQ|HQ]; try done.
  - exfalso. apply HQ, HPQ; [by left|done].
  - exfalso. apply HP, HPQ; [by left|done].
Qed.

(* ===================================================================== *)
(** ** The map built by the first two loops                               *)
(* ===================================================================== *)

Lemma add_fields_notin (fs : list Field) (m : gmap string Field) (k : string) :
  k ∉ keys fs → add_fields fs m !! k = m !! k.
Proof.
  revert m. induction fs as [|f fs IH]; intros m Hk; simpl; [done|].
  unfold keys in Hk. rewrite fmap_cons, not_elem_of_cons in Hk.
  destruct Hk as [Hne Hk]. rewrite IH by done. by rewrite lookup_insert_ne.
Qed.

(** A key of [fs] is mapped to a field of [fs] with that key. *)
Lemma add_fields_in (fs : list Field) (m : gmap string Field) (k : string) :
  k ∈ keys fs → ∃ f, add_fields fs m !! k = Some f ∧ f ∈ fs ∧ Key f = k.
Proof.
  revert m. induction fs as [|f fs IH]; intros m Hk; simpl.
  - by apply elem_of_nil in Hk.
  - destruct (decide (k ∈ keys fs)) as [Hin|Hnot].
    + destruct (IH (<[Key f := f]> m) Hin) as (g & Hg & Hgin & Hgk).
      exists g. split; [done|]. split; [by right|done].
    + unfold keys in Hk. rewrite fmap_cons in Hk.
      apply elem_of_cons in Hk as [->|Hk]; [|done].
      exists f. rewrite add_fields_notin by done.
      rewrite lookup_insert_eq. split; [done|]. split; [by left|done].
Qed.

(** Whatever the map holds came from the list or was there before. *)
Lemma add_fields_lookup (fs : list Field) (m : gmap string Field) (k : string) (f : Field) :
  add_fields fs m !! k = Some f →
  (f ∈ fs ∧ Key f = k) ∨ ((k ∉ keys fs) ∧ m !! k = Some f).
Proof.
  intros Hl. destruct (decide (k ∈ keys fs)) as [Hin|Hnot].
  - left. destruct (add_fields_in fs m k Hin) as (g & Hg & Hgin & Hgk).
    rewrite Hg in Hl. by inversion Hl; subst.
  - right. by rewrite add_fields_notin in Hl.
Qed.

(** With unique keys the map holds each field of the list under its key. *)
Lemma add_fields_unique (fs : list Field) (m : gmap string Field) (f : Field) :
  unique_keyed fs → f ∈ fs → add_fields fs m !! Key f = Some f.
Proof.
  intros Hu Hf.
  destruct (add_fields_in fs m (Key f) (key_elem_of _ _ Hf)) as (g & Hg & Hgin & Hgk).
  rewrite Hg. f_equal. by apply (unique_keyed_inj fs).
Qed.

(* ===================================================================== *)
(** ** The third and the fourth loop                                      *)
(* ===================================================================== *)

(** Both loops only append to [result]. *)
Lemma keep_existing_acc (fs : list Field) (m : gmap string Field) (res : list Field) :
  keep_existing fs m res
  = (res ++ (keep_existing fs m []).1, (keep_existing fs m []).2).
Proof.
  revert m res. induction fs as [|f fs IH]; intros m res; simpl.
  - by rewrite app_nil_r.
  - destruct (m !! Key f) as [g|]; [destruct (Equals g f)|]; try apply IH.
    rewrite (IH _ (res ++ [f])), (IH _ [f]). simpl. by rewrite <- app_assoc.
Qed.

Lemma add_new_acc (fs : list Field) (m : gmap string Field) (res : list Field) :
  add_new fs m res = (res ++ (add_new fs m []).1, (add_new fs m []).2).
Proof.
  revert m res. induction fs as [|f fs IH]; intros m res; simpl.
  - by rewrite app_nil_r.
  - destruct (m !! Key f) as [g|]; try apply IH.
    rewrite (IH _ (res ++ [f])), (IH _ [f]). simpl. by rewrite <- app_assoc.
Qed.

(** The unfolding equations of the loops run from an empty [result]. *)
Lemma keep_existing_cons (f : Field) (fs : list Field) (m : gmap string Field) :
  keep_existing (f :: fs) m []
  = if bool_decide (m !! Key f = Some f)
    then (f :: (keep_existing fs (delete (Key f) m) []).1,
          (keep_existing fs (delete (Key f) m) []).2)
    else keep_existing fs m [].
Proof.
  simpl. destruct (m !! Key f) as [g|] eqn:Hg.
  - destruct (Equals g f) eqn:He.
    + apply Equals_eq in He as ->.
      rewrite bool_decide_eq_true_2 by done. by rewrite keep_existing_acc.
    + apply Equals_neq in He.
      rewrite bool_decide_eq_false_2 by congruence. done.
  - by rewrite bool_decide_eq_false_2.
Qed.

Lemma add_new_cons (f : Field) (fs : list Field) (m : gmap string Field) :
  add_new (f :: fs) m []
  = if bool_decide (is_Some (m !! Key f))
    then (f :: (add_new fs (delete (Key f) m) []).1,
          (add_new fs (delete (Key f) m) []).2)
    else add_new fs m [].
Proof.
  simpl. destruct (m !! Key f) as [g|] eqn:Hg.
  - rewrite bool_decide_eq_true_2 by eauto. by rewrite add_new_acc.
  - rewrite bool_decide_eq_false_2; [done|]. by intros [? ?].
Qed.

(** *** What the third loop appends *)

Lemma kept_elem (fs : list Field) (m : gmap string Field) (f : Field) :
  f ∈ (keep_existing fs m []).1 → f ∈ fs ∧ m !! Key f = Some f.
Proof.
  revert m. induction fs as [|x fs IH]; intros m; [by intros ?%elem_of_nil|].
  rewrite keep_existing_cons. case_bool_decide as Hx; simpl.
  - intros [->|Hf]%elem_of_cons; [split; [by left|done]|].
    apply IH in Hf as [Hf Hl]. apply lookup_delete_Some in Hl as [_ Hl].
    split; [by right|done].
  - intros Hf. apply IH in Hf as [Hf Hl]. split; [by right|done].
Qed.

Lemma kept_map (fs : list Field) (m : gmap string Field) (k : string) :
  (keep_existing fs m []).2 !! k
  = if decide (k ∈ keys (keep_existing fs m []).1) then None else m !! k.
Proof.
  revert m. induction fs as [|x fs IH]; intros m.
  - destruct (decide _) as [Hin|]; [by apply elem_of_nil in Hin|done].
  - rewrite keep_existing_cons. case_bool_decide as Hx; simpl; [|apply IH].
    rewrite IH.
    destruct (decide (k ∈ Key x :: _)) as [Hin'|Hnot'];
      destruct (decide (k ∈ keys _)) as [Hin|Hnot]; try done.
    + apply elem_of_cons in Hin' as [->|?]; [|done]. apply lookup_delete_eq.
    + exfalso. apply Hnot'. by right.
    + apply lookup_delete_ne. intros <-. apply Hnot'. by left.
Qed.

Lemma kept_unique_keyed (fs : list Field) (m : gmap string Field) :
  unique_keyed (keep_existing fs m []).1.
Proof.
  unfold unique_keyed. revert m. induction fs as [|x fs IH]; intros m.
  - simpl. apply NoDup_nil_2.
  - rewrite keep_existing_cons. case_bool_decide as Hx; simpl; [|apply IH].
    apply NoDup_cons. split; [|apply IH].
    intros (g & Hg & Hk)%elem_of_keys. apply kept_elem in Hg as [_ Hl].
    rewrite Hk, lookup_delete_eq in Hl. done.
Qed.

Lemma kept_complete (fs : list Field) (m : gmap string Field) (f : Field) :
  f ∈ fs → m !! Key f = Some f → f ∈ (keep_existing fs m []).1.
Proof.
  revert m. induction fs as [|x fs IH]; intros m; [by intros ?%elem_of_nil|].
  intros Hf Hl. rewrite keep_existing_cons. case_bool_decide as Hx; simpl.
  - destruct (decide (Key f = Key x)) as [Hk|Hk].
    + rewrite Hk, Hx in Hl. inversion Hl. by left.
    + right. apply elem_of_cons in Hf as [->|Hf]; [done|].
      apply IH; [done|]. by rewrite lookup_delete_ne.
  - apply elem_of_cons in Hf as [->|Hf]; [done|]. by apply IH.
Qed.

Lemma kept_sublist (fs : list Field) (m : gmap string Field) :
  (keep_existing fs m []).1 `sublist_of` fs.
Proof.
  revert m. induction fs as [|x fs IH]; intros m; [done|].
  rewrite keep_existing_cons. case_bool_decide; simpl.
  - by apply sublist_skip.
  - by apply sublist_cons.
Qed.

(** On a unique-keyed list the third loop is a filter. *)
Lemma kept_filter (fs : list Field) (m : gmap string Field) :
  unique_keyed fs →
  (keep_existing fs m []).1 = filter (λ f, m !! Key f = Some f) fs.
Proof.
  unfold unique_keyed, keys. revert m.
  induction fs as [|x fs IH]; intros m; [done|].
  rewrite fmap_cons, NoDup_cons. intros [Hx Hnd].
  rewrite keep_existing_cons. case_bool_decide as Hl; simpl.
  - rewrite filter_cons_True by done. f_equal. rewrite IH by done.
    apply filter_ext_elem. intros g Hg.
    rewrite lookup_delete_ne; [done|].
    intros Hk. apply Hx. rewrite Hk. by apply key_elem_of.
  - rewrite filter_cons_False by done. by apply IH.
Qed.

(** *** What the fourth loop appends *)

Lemma added_elem (fs : list Field) (m : gmap string Field) (f : Field) :
  f ∈ (add_new fs m []).1 → f ∈ fs ∧ is_Some (m !! Key f).
Proof.
  revert m. induction fs as [|x fs IH]; intros m; [by intros ?%elem_of_nil|].
  rewrite add_new_cons. case_bool_decide as Hx; simpl.
  - intros [->|Hf]%elem_of_cons; [split; [by left|done]|].
    apply IH in Hf as [Hf [g Hl]]. apply lookup_delete_Some in Hl as [_ Hl].
    split; [by right|eauto].
  - intros Hf. apply IH in Hf as [Hf Hl]. split; [by right|done].
Qed.

Lemma added_unique_keyed (fs : list Field) (m : gmap string Field) :
  unique_keyed (add_new fs m []).1.
Proof.
  unfold unique_keyed. revert m. induction fs as [|x fs IH]; intros m.
  - simpl. apply NoDup_nil_2.
  - rewrite add_new_cons. case_bool_decide as Hx; simpl; [|apply IH].
    apply NoDup_cons. split; [|apply IH].
    intros (g & Hg & Hk)%elem_of_keys. apply added_elem in Hg as [_ [h Hl]].
    rewrite Hk, lookup_delete_eq in Hl. done.
Qed.

Lemma added_complete (fs : list Field) (m : gmap string Field) (k : string) :
  k ∈ keys fs → is_Some (m !! k) → k ∈ keys (add_new fs m []).1.
Proof.
  revert m. induction fs as [|x fs IH]; intros m; [by intros ?%elem_of_nil|].
  unfold keys at 1. rewrite fmap_cons. intros Hk Hl.
  rewrite add_new_cons. case_bool_decide as Hx; simpl.
  - destruct (decide (k = Key x)) as [->|Hne]; [by left|right].
    apply elem_of_cons in Hk as [?|Hk]; [done|].
    apply IH; [done|]. by rewrite lookup_delete_ne.
  - apply elem_of_cons in Hk as [->|Hk]; [done|]. by apply IH.
Qed.

Lemma added_sublist (fs : list Field) (m : gmap string Field) :
  (add_new fs m []).1 `sublist_of` fs.
Proof.
  revert m. induction fs as [|x fs IH]; intros m; [done|].
  rewrite add_new_cons. case_bool_decide; simpl.
  - by apply sublist_skip.
  - by apply sublist_cons.
Qed.

(** On a unique-keyed list the fourth loop is a filter. *)
Lemma added_filter (fs : list Field) (m : gmap string Field) :
  unique_keyed fs →
  (add_new fs m []).1 = filter (λ f, is_Some (m !! Key f)) fs.
Proof.
  unfold unique_keyed, keys. revert m.
  induction fs as [|x fs IH]; intros m; [done|].
  rewrite fmap_cons, NoDup_cons. intros [Hx Hnd].
  rewrite add_new_cons. case_bool_decide as Hl; simpl.
  - rewrite filter_cons_True by done. f_equal. rewrite IH by done.
    apply filter_ext_elem. intros g Hg.
    rewrite lookup_delete_ne; [done|].
    intros Hk. apply Hx. rewrite Hk. by apply key_elem_of.
  - rewrite filter_cons_False by done. by apply IH.
Qed.

(* ===================================================================== *)
(** ** The slow path as a whole                                           *)
(* ===================================================================== *)

Lemma merge_loops_eq (E N : list Field) :
  merge_loops E N
  = (keep_existing E (merge_map E N) []).1
    ++ (add_new N (keep_existing E (merge_map E N) []).2 []).1.
Proof.
  unfold merge_loops. fold (merge_map E N).
  destruct (keep_existing E (merge_map E N) []) as [res m3] eqn:H3.
  rewrite add_new_acc. done.
Qed.

(** The map holds the last field of [E ++ N] for each key: a field of [N]
    when the key occurs in [N], a field of [E] otherwise. *)
Lemma merge_map_lookup (E N : list Field) (k : string) (f : Field) :
  merge_map E N !! k = Some f →
  (f ∈ N ∧ Key f = k) ∨ ((k ∉ keys N) ∧ f ∈ E ∧ Key f = k).
Proof.
  unfold merge_map. intros [Hl|[Hk Hl]]%add_fields_lookup; [by left|right].
  split; [done|].
  apply add_fields_lookup in Hl as [Hl|[_ Hl]]; [done|].
  by rewrite lookup_empty in Hl.
Qed.

Lemma merge_map_new (E N : list Field) (k : string) :
  k ∈ keys N → ∃ f, merge_map E N !! k = Some f ∧ f ∈ N ∧ Key f = k.
Proof. apply add_fields_in. Qed.

Lemma merge_map_old (E N : list Field) (k : string) :
  k ∈ keys E → is_Some (merge_map E N !! k).
Proof.
  intros Hk. unfold merge_map. destruct (decide (k ∈ keys N)) as [Hin|Hnot].
  - destruct (add_fields_in N (add_fields E ∅) k Hin) as (f & -> & _). eauto.
  - rewrite add_fields_notin by done.
    destruct (add_fields_in E ∅ k Hk) as (f & -> & _). eauto.
Qed.

(** Nothing is fabricated. *)
Lemma merge_loops_elem (E N : list Field) (f : Field) :
  f ∈ merge_loops E N → f ∈ E ∨ f ∈ N.
Proof.
  rewrite merge_loops_eq. intros [Hf|Hf]%elem_of_app.
  - left. by apply kept_elem in Hf as [? _].
  - right. by apply added_elem in Hf as [? _].
Qed.

Lemma merge_loops_length (E N : list Field) :
  length (merge_loops E N) ≤ length E + length N.
Proof.
  rewrite merge_loops_eq, length_app.
  pose proof (sublist_length _ _ (kept_sublist E (merge_map E N))).
  pose proof (sublist_length _ _
    (added_sublist N (keep_existing E (merge_map E N) []).2)).
  lia.
Qed.

(** The loops never emit a key twice, whatever the arguments. *)
Lemma merge_loops_unique_keyed (E N : list Field) :
  unique_keyed (merge_loops E N).
Proof.
  rewrite merge_loops_eq. unfold unique_keyed. rewrite keys_app.
  apply NoDup_app. split; [apply kept_unique_keyed|].
  split; [|apply added_unique_keyed].
  intros k Hk (g & Hg & <-)%elem_of_keys.
  apply added_elem in Hg as [_ [h Hl]].
  rewrite kept_map, decide_True in Hl by done. done.
Qed.

(** Every key of [N] and every key of [E] is emitted. *)
Lemma merge_loops_keys_new (E N : list Field) (k : string) :
  k ∈ keys N → k ∈ keys (merge_loops E N).
Proof.
  intros Hk. rewrite merge_loops_eq, keys_app. apply elem_of_app.
  destruct (decide (k ∈ keys (keep_existing E (merge_map E N) []).1))
    as [Hin|Hnot]; [by left|right].
  apply added_complete; [done|].
  rewrite kept_map, decide_False by done.
  destruct (merge_map_new E N k Hk) as (f & -> & _). eauto.
Qed.

Lemma merge_loops_keys_old (E N : list Field) (k : string) :
  k ∈ keys E → k ∈ keys (merge_loops E N).
Proof.
  intros Hk. destruct (decide (k ∈ keys N)) as [Hin|Hnot];
    [by apply merge_loops_keys_new|].
  destruct (merge_map_old E N k Hk) as [f Hf].
  pose proof Hf as [[Hn <-]|(_ & He & <-)]%merge_map_lookup.
  - exfalso. apply Hnot. by apply key_elem_of.
  - rewrite merge_loops_eq, keys_app. apply elem_of_app. left.
    apply key_elem_of. by apply kept_complete.
Qed.

(** Override: a field whose key occurs in [N] is a field of [N]. *)
Lemma merge_loops_override (E N : list Field) (f : Field) :
  f ∈ merge_loops E N → Key f ∈ keys N → f ∈ N.
Proof.
  rewrite merge_loops_eq. intros [Hf|Hf]%elem_of_app Hk.
  - apply kept_elem in Hf as [_ Hl].
    apply merge_map_lookup in Hl as [[? _]|[? _]]; done.
  - by apply added_elem in Hf as [? _].
Qed.

(** On unique-keyed arguments the loops are the two filters. *)
Lemma merge_loops_filters (E N : list Field) :
  unique_keyed E → unique_keyed N →
  merge_loops E N = two_pass_equal_kept E N.
Proof.
  intros HE HN. rewrite merge_loops_eq. unfold two_pass_equal_kept.
  assert (Hkeep : ∀ e, e ∈ E →
            (merge_map E N !! Key e = Some e ↔ (Key e ∉ keys N) ∨ e ∈ N)).
  { intros e He. split.
    - intros [[? _]|[? _]]%merge_map_lookup; [by right|by left].
    - intros [Hk|Hn]; unfold merge_map.
      + rewrite add_fields_notin by done. by apply add_fields_unique.
      + by apply add_fields_unique. }
  f_equal.
  - rewrite kept_filter by done. by apply filter_ext_elem.
  - rewrite added_filter by done. apply filter_ext_elem. intros n Hn.
    rewrite kept_map.
    destruct (decide (Key n ∈ keys (keep_existing E (merge_map E N) []).1))
      as [Hin|Hnot].
    + split; [by intros [? ?]|]. intros Hne. exfalso. apply Hne.
      apply elem_of_keys in Hin as (e & He & Hk).
      apply kept_elem in He as [He Hl].
      rewrite Hk in Hl. unfold merge_map in Hl.
      rewrite add_fields_unique in Hl by done. by inversion Hl; subst.
    + split; [|intros _; unfold merge_map; rewrite add_fields_unique by done; eauto].
      intros _ He. apply Hnot, key_elem_of, kept_complete; [done|].
      apply Hkeep; [done|by right].
Qed.

(* ===================================================================== *)
(** ** The merge with its early returns                                   *)
(* ===================================================================== *)

Lemma merged_nil_l (N : list Field) : merged [] N = N.
Proof. done. Qed.

Lemma merged_nil_r (E : list Field) : merged E [] = E.
Proof. by destruct E. Qed.

Lemma merged_loops (E N : list Field) :
  E ≠ [] → N ≠ [] → merged E N = merge_loops E N.
Proof. by destruct E, N. Qed.

Lemma merged_cases (E N : list Field) :
  (E = [] ∧ merged E N = N) ∨ (N = [] ∧ merged E N = E)
  ∨ (E ≠ [] ∧ N ≠ [] ∧ merged E N = merge_loops E N).
Proof.
  destruct E as [|e E]; [by left|]. destruct N as [|n N]; [right; by left|].
  right; right. done.
Qed.

Lemma merged_elem (E N : list Field) (f : Field) :
  f ∈ merged E N → f ∈ E ∨ f ∈ N.
Proof.
  destruct (merged_cases E N) as [[_ ->]|[[_ ->]|(_ & _ & ->)]];
    [by right|by left|apply merge_loops_elem].
Qed.

Lemma merged_length (E N : list Field) :
  length (merged E N) ≤ length E + length N.
Proof.
  destruct (merged_cases E N) as [[_ ->]|[[_ ->]|(_ & _ & ->)]];
    [lia|lia|apply merge_loops_length].
Qed.

Lemma merged_override (E N : list Field) (f : Field) :
  f ∈ merged E N → Key f ∈ keys N → f ∈ N.
Proof.
  destruct (merged_cases E N) as [[_ ->]|[[-> ->]|(_ & _ & ->)]];
    [done| |apply merge_loops_override].
  by intros _ ?%elem_of_nil.
Qed.

Lemma merged_keys_new (E N : list Field) (k : string) :
  k ∈ keys N → k ∈ keys (merged E N).
Proof.
  destruct (merged_cases E N) as [[_ ->]|[[-> ->]|(_ & _ & ->)]];
    [done| |apply merge_loops_keys_new].
  by intros ?%elem_of_nil.
Qed.

Lemma merged_keys_old (E N : list Field) (k : string) :
  k ∈ keys E → k ∈ keys (merged E N).
Proof.
  destruct (merged_cases E N) as [[-> ->]|[[_ ->]|(_ & _ & ->)]];
    [|done|apply merge_loops_keys_old].
  by intros ?%elem_of_nil.
Qed.

(** The result is unique-keyed unless an early return hands back an argument
    that is not. *)
Lemma merged_unique_keyed (E N : list Field) :
  unique_keyed E → E ≠ [] ∨ unique_keyed N → unique_keyed (merged E N).
Proof.
  intros HE HN.
  destruct (merged_cases E N) as [[-> ->]|[[_ ->]|(_ & _ & ->)]];
    [|done|apply merge_loops_unique_keyed].
  by destruct HN.
Qed.

Lemma filter_all {A} (P : A → Prop) `{∀ x, Decision (P x)} (l : list A) :
  (∀ x, x ∈ l → P x) → filter P l = l.
Proof.
  induction l as [|x l IH]; intros HP; [done|].
  rewrite filter_cons_True by (apply HP; by left).
  f_equal. apply IH. intros y Hy. apply HP. by right.
Qed.

Lemma merged_filters (E N : list Field) :
  unique_keyed E → unique_keyed N → merged E N = two_pass_equal_kept E N.
Proof.
  intros HE HN.
  destruct (merged_cases E N) as [[-> ->]|[[-> ->]|(_ & _ & ->)]].
  - unfold two_pass_equal_kept. simpl. symmetry. apply filter_all.
    intros f _. apply not_elem_of_nil.
  - unfold two_pass_equal_kept. rewrite app_nil_r. symmetry. apply filter_all.
    intros f _. left. apply not_elem_of_nil.
  - by apply merge_loops_filters.
Qed.

(** When no incoming field is also an existing field, the two filters are
    the spec's two passes. *)
Lemma two_pass_equal_kept_disjoint (E N : list Field) :
  (∀ f, f ∈ N → f ∉ E) → two_pass_equal_kept E N = two_pass E N.
Proof.
  intros Hd. unfold two_pass_equal_kept, two_pass. f_equal.
  - apply filter_ext_elem. intros e He. split; [|by left].
    intros [?|Hn]; [done|]. by apply Hd in Hn.
  - by apply filter_all.
Qed.

(** A key of a unique-keyed list that occurs in it selects one field. *)
Lemma with_key_singleton (fs : list Field) (k : string) (f : Field) :
  unique_keyed fs → f ∈ fs → Key f = k → with_key k fs = [f].
Proof. intros Hu Hf <-. by apply with_key_unique. Qed.

(** Override on the merge: the one field under a key of a unique-keyed
    [N] is [N]'s field, provided the result is unique-keyed. *)
Lemma merged_with_key (E N : list Field) (fn : Field) :
  unique_keyed (merged E N) → unique_keyed N → fn ∈ N →
  with_key (Key fn) (merged E N) = [fn].
Proof.
  intros Hu HN Hfn.
  pose proof (merged_keys_new E N (Key fn) (key_elem_of _ _ Hfn)) as Hk.
  apply elem_of_keys in Hk as (g & Hg & Hgk).
  assert (g ∈ N) as HgN.
  { apply (merged_override E N); [done|]. rewrite Hgk. by apply key_elem_of. }
  assert (g = fn) as -> by by apply (unique_keyed_inj N).
  by apply with_key_unique.
Qed.

(* ===================================================================== *)
(** ** States that extend one another                                     *)
(* ===================================================================== *)

Lemma extends_refl (σ : state) : extends σ σ.
Proof. unfold extends. done. Qed.

Lemma extends_trans (σ1 σ2 σ3 : state) :
  extends σ1 σ2 → extends σ2 σ3 → extends σ1 σ3.
Proof. unfold extends. intros H12 H23. by etrans. Qed.

Lemma extends_insert (σ : state) (l : loc) (arr : list Field) (n : nat) :
  heap σ !! l = None → extends σ (mkState (<[l := arr]> (heap σ)) n).
Proof. intros Hl. unfold extends. simpl. by apply insert_subseteq. Qed.

Lemma allocated_extends (σ σ' : state) (s : slice) :
  allocated σ s → extends σ σ' → allocated σ' s.
Proof.
  destruct s as [|l]; [done|]. simpl. intros [a Ha] Hext.
  exists a. by eapply lookup_weaken.
Qed.

Lemma load_extends (σ σ' : state) (s : slice) :
  allocated σ s → extends σ σ' → load σ' s = load σ s.
Proof.
  destruct s as [|l]; [done|]. simpl. intros [a Ha] Hext.
  by rewrite Ha, (lookup_weaken _ _ _ _ Ha Hext).
Qed.

Lemma load_nonempty_allocated (σ : state) (s : slice) :
  load σ s ≠ [] → allocated σ s.
Proof.
  destruct s as [|l]; [done|]. simpl.
  destruct (heap σ !! l); [eauto|done].
Qed.

Lemma handle_ok_extends (σ σ' : state) (ctx : handle) :
  handle_ok σ ctx → extends σ σ' → handle_ok σ' ctx.
Proof.
  unfold handle_ok. destruct (stored ctx); [|done]. apply allocated_extends.
Qed.

Lemma fields_of_extends (σ σ' : state) (ctx : handle) :
  handle_ok σ ctx → extends σ σ' → fields_of σ' ctx = fields_of σ ctx.
Proof.
  unfold handle_ok, fields_of. destruct (stored ctx); [|done]. apply load_extends.
Qed.

(** Overwriting an array that did not exist in [σ] is invisible to every
    slice and handle of [σ]. *)
Lemma load_overwrite (σ σ' : state) (s : slice) (l : loc) (arr : list Field) :
  allocated σ s → extends σ σ' → heap σ !! l = None →
  load (overwrite (SliceAt l) arr σ') s = load σ s.
Proof.
  destruct s as [|l']; [done|]. simpl. intros [a Ha] Hext Hl.
  rewrite lookup_insert_ne by congruence.
  by rewrite Ha, (lookup_weaken _ _ _ _ Ha Hext).
Qed.

Lemma fields_of_overwrite (σ σ' : state) (ctx : handle) (l : loc) (arr : list Field) :
  handle_ok σ ctx → extends σ σ' → heap σ !! l = None →
  fields_of (overwrite (SliceAt l) arr σ') ctx = fields_of σ ctx.
Proof.
  unfold handle_ok, fields_of. destruct (stored ctx); [|done]. apply load_overwrite.
Qed.

(* ===================================================================== *)
(** ** What the operations do to a state                                  *)
(* ===================================================================== *)

Lemma alloc_run (arr : list Field) (σ : state) :
  ∃ l, heap σ !! l = None
       ∧ alloc arr σ = Ok (SliceAt l) (set_heap (<[l := arr]> (heap σ)) σ).
Proof.
  exists (fresh (dom (heap σ))). split; [|done].
  apply not_elem_of_dom, is_fresh.
Qed.

(** [make] followed by [copy] from a slice of that length leaves a new array
    holding the elements of the source. *)
Lemma make_copy_run (fields : slice) (σ : state) :
  ∃ l, heap σ !! l = None
       ∧ (do n <- len fields;
          do result <- make n;
          do _ <- copy result fields;
          ret result) σ
         = Ok (SliceAt l) (set_heap (<[l := load σ fields]> (heap σ)) σ).
Proof.
  exists (fresh (dom (heap σ))).
  assert (heap σ !! fresh (dom (heap σ)) = None) as Hl
    by apply not_elem_of_dom, is_fresh.
  split; [done|].
  set (l := fresh (dom (heap σ))) in *.
  unfold bind, len, make, alloc, copy, ret, set_heap. simpl. fold l.
  rewrite lookup_insert_eq.
  assert (load {| heap := <[l := replicate (length (load σ fields)) zeroField]> (heap σ);
                  next_ctx := next_ctx σ |} fields = load σ fields) as ->.
  { destruct fields as [|l']; [done|]. simpl.
    destruct (decide (l = l')) as [<-|Hne].
    - by rewrite lookup_insert_eq, Hl.
    - by rewrite lookup_insert_ne. }
  rewrite length_replicate, Nat.min_id, insert_insert_eq.
  rewrite firstn_all.
  rewrite drop_ge by (by rewrite length_replicate).
  by rewrite app_nil_r.
Qed.

Lemma FieldsFromContext_run (ctx : handle) (σ : state) :
  match stored ctx with
  | None => FieldsFromContext ctx σ = Ok nil_slice σ
  | Some s =>
      ∃ l, heap σ !! l = None
           ∧ FieldsFromContext ctx σ
             = Ok (SliceAt l) (set_heap (<[l := load σ s]> (heap σ)) σ)
  end.
Proof.
  destruct ctx as [c|]; [|done].
  unfold stored, FieldsFromContext.
  rewrite bool_decide_eq_false_2 by done.
  unfold ctx_Value. unfold bind at 1. unfold ret at 1.
  destruct (Value c fieldsKey) as [[s|v]|]; try done.
  apply make_copy_run.
Qed.

(** The copy holds the handle's fields, every array of the old state is
    untouched, and no context node is created. *)
Lemma FieldsFromContext_spec (ctx : handle) (σ : state) :
  ∃ r σ', FieldsFromContext ctx σ = Ok r σ'
          ∧ load σ' r = fields_of σ ctx
          ∧ extends σ σ'
          ∧ next_ctx σ' = next_ctx σ.
Proof.
  pose proof (FieldsFromContext_run ctx σ) as Hrun. unfold fields_of.
  destruct (stored ctx) as [s|].
  - destruct Hrun as (l & Hl & ->). eexists _, _. split; [done|].
    split; [simpl; by rewrite lookup_insert_eq|].
    split; [by apply extends_insert|done].
  - rewrite Hrun. eexists _, _. split; [done|].
    split; [done|]. split; [apply extends_refl|done].
Qed.

Lemma MergeFields_nil_l (e n : slice) (σ : state) :
  load σ e = [] → MergeFields e n σ = Ok n σ.
Proof.
  intros He. unfold MergeFields, bind, len. by rewrite He.
Qed.

Lemma MergeFields_nil_r (e n : slice) (σ : state) :
  load σ e ≠ [] → load σ n = [] → MergeFields e n σ = Ok e σ.
Proof.
  intros He Hn. unfold MergeFields, bind, len.
  rewrite bool_decide_eq_false_2 by (by destruct (load σ e)).
  by rewrite Hn.
Qed.

Lemma MergeFields_loops (e n : slice) (σ : state) :
  load σ e ≠ [] → load σ n ≠ [] →
  ∃ l, heap σ !! l = None
       ∧ MergeFields e n σ
         = Ok (SliceAt l)
              (set_heap (<[l := merge_loops (load σ e) (load σ n)]> (heap σ)) σ).
Proof.
  intros He Hn. unfold MergeFields, bind, len, elems.
  rewrite bool_decide_eq_false_2 by (by destruct (load σ e)).
  rewrite bool_decide_eq_false_2 by (by destruct (load σ n)).
  apply alloc_run.
Qed.

(** [MergeFields] returns, and its result holds [merged] of the elements of
    its arguments; it writes to no array that existed. *)
Lemma MergeFields_spec (e n : slice) (σ : state) :
  ∃ r σ', MergeFields e n σ = Ok r σ'
          ∧ load σ' r = merged (load σ e) (load σ n)
          ∧ extends σ σ'
          ∧ next_ctx σ' = next_ctx σ
          ∧ (allocated σ e → allocated σ n → allocated σ' r).
Proof.
  destruct (decide (load σ e = [])) as [He|He].
  - rewrite MergeFields_nil_l by done. eexists _, _. split; [done|].
    rewrite He. split; [done|]. split; [apply extends_refl|]. split; done.
  - destruct (decide (load σ n = [])) as [Hn|Hn].
    + rewrite MergeFields_nil_r by done. eexists _, _. split; [done|].
      rewrite Hn, merged_nil_r. split; [done|]. split; [apply extends_refl|].
      split; done.
    + destruct (MergeFields_loops e n σ He Hn) as (l & Hl & ->).
      eexists _, _. split; [done|]. rewrite merged_loops by done.
      split; [simpl; by rewrite lookup_insert_eq|].
      split; [by apply extends_insert|]. split; [done|].
      intros _ _. simpl. rewrite lookup_insert_eq. eauto.
Qed.

Lemma stored_valueCtx (id : nat) (c : Context) (s : slice) :
  stored (Some (valueCtx id c fieldsKey (AnyFields s))) = Some s.
Proof. reflexivity. Qed.

(** [WithFields] on a handle that is not nil returns; the new handle carries
    [merged] of the old handle's fields and the attached ones; no array
    that existed is written to. *)
Lemma WithFields_spec (c : Context) (fields : slice) (σ : state) :
  ∃ h' σ', WithFields (Some c) fields σ = Ok h' σ'
           ∧ fields_of σ' h' = merged (fields_of σ (Some c)) (load σ fields)
           ∧ extends σ σ'
           ∧ (handle_ok σ (Some c) → handle_ok σ' h')
           ∧ (load σ fields = [] → h' = Some c ∧ σ' = σ)
           ∧ (load σ fields ≠ [] →
                ∃ s, h' = Some (valueCtx (next_ctx σ) c fieldsKey (AnyFields s))
                     ∧ next_ctx σ' = S (next_ctx σ)).
Proof.
  unfold WithFields. unfold bind at 1. unfold len at 1.
  destruct (decide (load σ fields = [])) as [Hf|Hf].
  - rewrite Hf. simpl. eexists _, _. split; [done|].
    rewrite merged_nil_r. split; [done|]. split; [apply extends_refl|].
    split; [done|]. split; done.
  - rewrite bool_decide_eq_false_2 by (by destruct (load σ fields)).
    pose proof (load_nonempty_allocated _ _ Hf) as Hfa.
    destruct (FieldsFromContext_spec (Some c) σ) as (r & σ1 & Hrun & Hr & Hext1 & Hn1).
    unfold bind at 1. rewrite Hrun.
    unfold bind at 1. unfold len at 1. rewrite Hr.
    destruct (decide (fields_of σ (Some c) = [])) as [Hc|Hc].
    + rewrite Hc. simpl. eexists _, _. split; [done|].
      split.
      { unfold fields_of. rewrite stored_valueCtx. simpl.
        change (load σ1 fields = load σ fields). by apply load_extends. }
      split; [done|]. split.
      { intros _. unfold handle_ok. rewrite stored_valueCtx.
        by apply (allocated_extends σ). }
      split; [done|]. intros _. rewrite Hn1. eauto.
    + rewrite bool_decide_eq_false_2 by (by destruct (fields_of σ (Some c))).
      assert (allocated σ1 r) as Hra.
      { apply load_nonempty_allocated. by rewrite Hr. }
      destruct (MergeFields_spec r fields σ1)
        as (r2 & σ2 & Hrun2 & Hr2 & Hext2 & Hn2 & Ha2).
      unfold bind at 1. rewrite Hrun2. simpl.
      eexists _, _. split; [done|]. split.
      { unfold fields_of. rewrite stored_valueCtx.
        transitivity (load σ2 r2); [done|].
        rewrite Hr2, Hr. f_equal. by apply load_extends. }
      split; [by apply (extends_trans σ σ1)|]. split.
      { intros _. unfold handle_ok. rewrite stored_valueCtx.
        apply Ha2; [done|]. by apply (allocated_extends σ). }
      split; [done|]. intros _. rewrite Hn2, Hn1. eauto.
Qed.

(** Whatever [WithFields] does, every handle of the old state reads the
    same fields afterwards. *)
Lemma WithFields_frame (c : Context) (fields : slice) (σ : state)
    (h' : handle) (σ' : state) (g : handle) :
  WithFields (Some c) fields σ = Ok h' σ' → handle_ok σ g →
  fields_of σ' g = fields_of σ g.
Proof.
  intros Hrun Hg.
  destruct (WithFields_spec c fields σ) as (h & σ2 & Hrun' & _ & Hext & _).
  rewrite Hrun in Hrun'. inversion Hrun'; subst.
  by apply fields_of_extends.
Qed.

(* ===================================================================== *)
(** ** MergeFields: the claims                                            *)
(* ===================================================================== *)

(** C1, as the spec states it, fails: with existing = [a=1, b=2] and
    incoming = [a=1], both unique-keyed, [MergeFields] returns [a=1, b=2]
    (the field [a=1] is equal in both and stays where [existing] has it),
    while the spec's two passes give [b=2, a=1]. *)
Lemma MergeFields_two_pass_differs :
  unique_keyed (load (state_of [[zap_Int "a" 1; zap_Int "b" 2]; [zap_Int "a" 1]]) (SliceAt 0))
  ∧ unique_keyed (load (state_of [[zap_Int "a" 1; zap_Int "b" 2]; [zap_Int "a" 1]]) (SliceAt 1))
  ∧ ∃ r σ',
      MergeFields (SliceAt 0) (SliceAt 1)
        (state_of [[zap_Int "a" 1; zap_Int "b" 2]; [zap_Int "a" 1]]) = Ok r σ'
      ∧ load σ' r = [zap_Int "a" 1; zap_Int "b" 2]
      ∧ two_pass [zap_Int "a" 1; zap_Int "b" 2] [zap_Int "a" 1]
        = [zap_Int "b" 2; zap_Int "a" 1]
      ∧ load σ' r ≠ two_pass [zap_Int "a" 1; zap_Int "b" 2] [zap_Int "a" 1].
Proof.
  split; [solve_unique_keyed|]. split; [solve_unique_keyed|].
  eexists _, _. split; [run_concrete|].
  split; [run_concrete|]. split; [run_concrete|].
  vm_compute. intros Heq. discriminate Heq.
Qed.

(** C1 (amended): for unique-keyed [existing] and [incoming], [MergeFields]
    returns the existing fields whose key does not occur in [incoming] or
    that [incoming] holds unchanged, in their original order, followed by
    the incoming fields that [existing] does not hold, in [incoming]'s
    order.  When no incoming field is also an existing field this is the
    spec's two-pass result. *)
Theorem MergeFields_two_pass_equal_kept (σ : state) (e n : slice) :
  unique_keyed (load σ e) → unique_keyed (load σ n) →
  ∃ r σ', MergeFields e n σ = Ok r σ'
          ∧ load σ' r = two_pass_equal_kept (load σ e) (load σ n)
          ∧ ((∀ f, f ∈ load σ n → f ∉ load σ e) →
             load σ' r = two_pass (load σ e) (load σ n)).
Proof.
  intros HE HN.
  destruct (MergeFields_spec e n σ) as (r & σ' & Hrun & Hr & _).
  exists r, σ'. split; [done|].
  rewrite Hr, merged_filters by done. split; [done|].
  apply two_pass_equal_kept_disjoint.
Qed.

Lemma MergeFields_two_pass_equal_kept_witness :
  ∃ r σ',
    MergeFields (SliceAt 0) (SliceAt 1)
      (state_of [[zap_Int "a" 1; zap_Int "b" 2]; [zap_Int "b" 20; zap_Int "c" 3]])
    = Ok r σ'
    ∧ load σ' r = [zap_Int "a" 1; zap_Int "b" 20; zap_Int "c" 3].
Proof.
  destruct (MergeFields_two_pass_equal_kept
              (state_of [[zap_Int "a" 1; zap_Int "b" 2]; [zap_Int "b" 20; zap_Int "c" 3]])
              (SliceAt 0) (SliceAt 1))
    as (r & σ' & Hrun & Hr & _); [solve_unique_keyed|solve_unique_keyed|].
  exists r, σ'. split; [exact Hrun|]. rewrite Hr. run_concrete.
Defined.

(** C2, as the spec states it, fails: when [existing] is empty the early
    return hands back [incoming] as it is, so with incoming = [a=1, a=2]
    the result holds two fields under the key "a". *)
Lemma MergeFields_duplicates_kept :
  2 ≤ length (with_key "a" (load (state_of [[zap_Int "a" 1; zap_Int "a" 2]]) (SliceAt 0)))
  ∧ ∃ r σ',
      MergeFields nil_slice (SliceAt 0) (state_of [[zap_Int "a" 1; zap_Int "a" 2]])
      = Ok r σ'
      ∧ with_key "a" (load σ' r) = [zap_Int "a" 1; zap_Int "a" 2].
Proof.
  split; [vm_compute; lia|].
  eexists _, _. split; [run_concrete|]. run_concrete.
Qed.

(** C2 (amended): for every non-empty [existing] and every [incoming] that
    holds two or more fields with the same key, the result of [MergeFields]
    holds exactly one field with that key, and it is one of the fields
    [incoming] holds under that key. *)
Theorem MergeFields_duplicates_once (σ : state) (e n : slice) (k : string) :
  load σ e ≠ [] → 2 ≤ length (with_key k (load σ n)) →
  ∃ r σ' f, MergeFields e n σ = Ok r σ'
            ∧ with_key k (load σ' r) = [f]
            ∧ f ∈ with_key k (load σ n).
Proof.
  intros He Hk.
  assert (k ∈ keys (load σ n)) as Hin.
  { destruct (with_key k (load σ n)) as [|g gs] eqn:Hg; [simpl in Hk; lia|].
    assert (g ∈ with_key k (load σ n)) as Hgin by (rewrite Hg; by left).
    apply list_elem_of_filter in Hgin as [<- Hgin]. by apply key_elem_of. }
  assert (load σ n ≠ []) as Hn by (by intros Heq; rewrite Heq in Hin; apply elem_of_nil in Hin).
  destruct (MergeFields_spec e n σ) as (r & σ' & Hrun & Hr & _).
  rewrite merged_loops in Hr by done.
  pose proof (merge_loops_keys_new (load σ e) (load σ n) k Hin) as Hout.
  apply elem_of_keys in Hout as (f & Hf & Hfk).
  exists r, σ', f. split; [done|]. rewrite Hr. split.
  - apply with_key_singleton; [apply merge_loops_unique_keyed|done|done].
  - apply list_elem_of_filter. split; [done|].
    apply (merge_loops_override (load σ e)); [done|]. by rewrite Hfk.
Qed.

Lemma MergeFields_duplicates_once_witness :
  ∃ r σ' f,
    MergeFields (SliceAt 0) (SliceAt 1)
      (state_of [[zap_Int "b" 0]; [zap_Int "a" 1; zap_Int "a" 2]]) = Ok r σ'
    ∧ with_key "a" (load σ' r) = [f]
    ∧ f ∈ with_key "a" [zap_Int "a" 1; zap_Int "a" 2].
Proof.
  apply (MergeFields_duplicates_once
           (state_of [[zap_Int "b" 0]; [zap_Int "a" 1; zap_Int "a" 2]])
           (SliceAt 0) (SliceAt 1) "a").
  - vm_compute. intros Heq. discriminate Heq.
  - vm_compute. lia.
Defined.

(** Which of the duplicates is emitted: the fourth loop appends the first
    field it meets under a key, so existing = [b=0], incoming = [a=1, a=2]
    gives [b=0, a=1]. *)
Example MergeFields_duplicates_first :
  ∃ r σ',
    MergeFields (SliceAt 0) (SliceAt 1)
      (state_of [[zap_Int "b" 0]; [zap_Int "a" 1; zap_Int "a" 2]]) = Ok r σ'
    ∧ load σ' r = [zap_Int "b" 0; zap_Int "a" 1].
Proof. eexists _, _. split; run_concrete. Qed.

(** C3, as the spec states it, fails: with an empty (hence unique-keyed)
    [existing] and incoming = [a=1, a=2], [MergeFields] returns [incoming]
    itself, and [WithFields] on a handle without fields stores it as it is:
    the handle's collection holds the key "a" twice. *)
Lemma WithFields_duplicates_kept :
  unique_keyed (load (state_of [[zap_Int "a" 1; zap_Int "a" 2]]) nil_slice)
  ∧ (∃ r σ',
       MergeFields nil_slice (SliceAt 0) (state_of [[zap_Int "a" 1; zap_Int "a" 2]])
       = Ok r σ'
       ∧ keys (load σ' r) = ["a"; "a"]
       ∧ ¬ unique_keyed (load σ' r))
  ∧ (∃ h' σ',
       WithFields (Some Background) (SliceAt 0)
         (state_of [[zap_Int "a" 1; zap_Int "a" 2]]) = Ok h' σ'
       ∧ keys (fields_of σ' h') = ["a"; "a"]
       ∧ ¬ unique_keyed (fields_of σ' h')).
Proof.
  split; [solve_unique_keyed|]. split.
  - eexists _, _. split; [run_concrete|]. split; [run_concrete|].
    unfold unique_keyed. vm_compute (keys _).
    intros [Hnot _]%NoDup_cons. apply Hnot. by left.
  - eexists _, _. split; [run_concrete|]. split; [run_concrete|].
    unfold unique_keyed. vm_compute (keys _).
    intros [Hnot _]%NoDup_cons. apply Hnot. by left.
Qed.

(** C3 (amended): [MergeFields] returns a unique-keyed collection whenever
    [existing] is unique-keyed and either [existing] is not empty or
    [incoming] is unique-keyed too; consequently [WithFields] on a handle
    whose collection is unique-keyed gives a handle whose collection is
    unique-keyed, whenever the handle's collection is not empty or the
    attached fields are unique-keyed. *)
Theorem WithFields_unique_keyed :
  (∀ (σ : state) (e n : slice),
     unique_keyed (load σ e) →
     load σ e ≠ [] ∨ unique_keyed (load σ n) →
     ∃ r σ', MergeFields e n σ = Ok r σ' ∧ unique_keyed (load σ' r))
  ∧ (∀ (σ : state) (c : Context) (fields : slice),
       unique_keyed (fields_of σ (Some c)) →
       fields_of σ (Some c) ≠ [] ∨ unique_keyed (load σ fields) →
       ∃ h' σ', WithFields (Some c) fields σ = Ok h' σ'
                ∧ unique_keyed (fields_of σ' h')).
Proof.
  split.
  - intros σ e n HE HN.
    destruct (MergeFields_spec e n σ) as (r & σ' & Hrun & Hr & _).
    exists r, σ'. split; [done|]. rewrite Hr. by apply merged_unique_keyed.
  - intros σ c fields HE HN.
    destruct (WithFields_spec c fields σ) as (h' & σ' & Hrun & Hr & _).
    exists h', σ'. split; [done|]. rewrite Hr. by apply merged_unique_keyed.
Qed.

Lemma WithFields_unique_keyed_witness :
  (∃ r σ',
     MergeFields (SliceAt 0) (SliceAt 1)
       (state_of [[zap_Int "b" 0]; [zap_Int "a" 1; zap_Int "a" 2]]) = Ok r σ'
     ∧ unique_keyed (load σ' r))
  ∧ (∃ h' σ',
       WithFields (Some Background) (SliceAt 0)
         (state_of [[zap_String "request_id" "abc123"; zap_String "user_id" "user456"]])
       = Ok h' σ'
       ∧ unique_keyed (fields_of σ' h')).
Proof.
  split.
  - apply (proj1 WithFields_unique_keyed
             (state_of [[zap_Int "b" 0]; [zap_Int "a" 1; zap_Int "a" 2]])
             (SliceAt 0) (SliceAt 1)).
    + solve_unique_keyed.
    + left. vm_compute. intros Heq. discriminate Heq.
  - apply (proj2 WithFields_unique_keyed
             (state_of [[zap_String "request_id" "abc123"; zap_String "user_id" "user456"]])
             Background (SliceAt 0)).
    + solve_unique_keyed.
    + right. solve_unique_keyed.
Defined.

(** C10: [MergeFields] fabricates nothing: every field of the result is a
    field of [existing] or of [incoming], and the result is no longer than
    the two together. *)
Theorem MergeFields_fabricates_nothing (σ : state) (e n : slice) :
  ∃ r σ', MergeFields e n σ = Ok r σ'
          ∧ Forall (λ f, f ∈ load σ e ∨ f ∈ load σ n) (load σ' r)
          ∧ length (load σ' r) ≤ length (load σ e) + length (load σ n).
Proof.
  destruct (MergeFields_spec e n σ) as (r & σ' & Hrun & Hr & _).
  exists r, σ'. split; [done|]. rewrite Hr. split.
  - apply Forall_forall. intros f. apply merged_elem.
  - apply merged_length.
Qed.

(** C4: for unique-keyed [existing] and [incoming] and a key that occurs in
    both, the result of [MergeFields] holds exactly one field under that
    key, the one [incoming] carries.  In particular, attaching [{k, old}]
    and then [{k, new}] to a handle leaves [{k, new}] as the one field
    under [k]; from a handle without fields, [FieldsFromContext] then
    returns exactly [[{k, new}]]. *)
Theorem WithFields_override :
  (∀ (σ : state) (e n : slice) (fe fn : Field),
     unique_keyed (load σ e) → unique_keyed (load σ n) →
     fe ∈ load σ e → fn ∈ load σ n → Key fe = Key fn →
     ∃ r σ', MergeFields e n σ = Ok r σ'
             ∧ with_key (Key fn) (load σ' r) = [fn])
  ∧ (∀ (σ : state) (c : Context) (s1 s2 : slice) (old new : Field),
       load σ s1 = [old] → load σ s2 = [new] → Key old = Key new →
       ∃ h1 σ1 h2 σ2 r σ3,
         WithFields (Some c) s1 σ = Ok h1 σ1
         ∧ WithFields h1 s2 σ1 = Ok h2 σ2
         ∧ FieldsFromContext h2 σ2 = Ok r σ3
         ∧ with_key (Key new) (load σ3 r) = [new]
         ∧ (fields_of σ (Some c) = [] → load σ3 r = [new])).
Proof.
  split.
  - intros σ e n fe fn HE HN Hfe Hfn Hk.
    destruct (MergeFields_spec e n σ) as (r & σ' & Hrun & Hr & _).
    exists r, σ'. split; [done|]. rewrite Hr.
    apply merged_with_key; [|done|done].
    apply merged_unique_keyed; [done|by right].
  - intros σ c s1 s2 old new H1 H2 Hk.
    assert (load σ s1 ≠ []) as Hne1 by (by rewrite H1).
    assert (load σ s2 ≠ []) as Hne2 by (by rewrite H2).
    destruct (WithFields_spec c s1 σ)
      as (h1 & σ1 & Hrun1 & Hf1 & Hext1 & _ & _ & Hnew1).
    destruct (Hnew1 Hne1) as (s & -> & _).
    assert (load σ1 s2 = [new]) as H2'.
    { rewrite <- H2. apply load_extends; [|done].
      by apply load_nonempty_allocated. }
    destruct (WithFields_spec (valueCtx (next_ctx σ) c fieldsKey (AnyFields s)) s2 σ1)
      as (h2 & σ2 & Hrun2 & Hf2 & _).
    destruct (FieldsFromContext_spec h2 σ2) as (r & σ3 & Hrun3 & Hr & _).
    eexists _, σ1, h2, σ2, r, σ3.
    split; [exact Hrun1|]. split; [exact Hrun2|]. split; [exact Hrun3|].
    rewrite Hr, Hf2, Hf1, H1, H2'.
    set (H := fields_of σ (Some c)).
    assert (merged H [old] ≠ []) as HF1.
    { intros Heq.
      pose proof (merged_keys_new H [old] (Key old)) as Hin.
      rewrite Heq in Hin. apply (not_elem_of_nil (Key old)), Hin. by left. }
    split.
    + apply merged_with_key; [|apply NoDup_singleton|by left].
      rewrite merged_loops by done. apply merge_loops_unique_keyed.
    + intros ->. rewrite merged_nil_l.
      rewrite merged_filters by apply NoDup_singleton.
      unfold two_pass_equal_kept.
      destruct (decide (old = new)) as [->|Hne].
      * rewrite filter_cons_True by (right; by left).
        rewrite filter_cons_False; [done|]. intros Hnot. apply Hnot. by left.
      * rewrite filter_cons_False.
        { rewrite filter_cons_True; [done|]. by intros ?%list_elem_of_singleton. }
        intros [Hnot|Hin%list_elem_of_singleton]; [|done].
        apply Hnot. rewrite Hk. by left.
Qed.

Lemma WithFields_override_witness :
  (∃ r σ',
     MergeFields (SliceAt 0) (SliceAt 1)
       (state_of [[zap_String "key" "old"; zap_String "other" "value"];
                  [zap_String "key" "new"]]) = Ok r σ'
     ∧ with_key "key" (load σ' r) = [zap_String "key" "new"])
  ∧ (∃ h1 σ1 h2 σ2 r σ3,
       WithFields (Some Background) (SliceAt 0)
         (state_of [[zap_String "k" "old"]; [zap_String "k" "new"]]) = Ok h1 σ1
       ∧ WithFields h1 (SliceAt 1) σ1 = Ok h2 σ2
       ∧ FieldsFromContext h2 σ2 = Ok r σ3
       ∧ load σ3 r = [zap_String "k" "new"]).
Proof.
  split.
  - apply (proj1 WithFields_override
             (state_of [[zap_String "key" "old"; zap_String "other" "value"];
                        [zap_String "key" "new"]])
             (SliceAt 0) (SliceAt 1)
             (zap_String "key" "old") (zap_String "key" "new")).
    + solve_unique_keyed.
    + solve_unique_keyed.
    + vm_compute. by left.
    + vm_compute. by left.
    + reflexivity.
  - destruct (proj2 WithFields_override
                (state_of [[zap_String "k" "old"]; [zap_String "k" "new"]])
                Background (SliceAt 0) (SliceAt 1)
                (zap_String "k" "old") (zap_String "k" "new"))
      as (h1 & σ1 & h2 & σ2 & r & σ3 & Hrun1 & Hrun2 & Hrun3 & _ & Hall);
      [reflexivity|reflexivity|reflexivity|].
    exists h1, σ1, h2, σ2, r, σ3.
    split; [exact Hrun1|]. split; [exact Hrun2|]. split; [exact Hrun3|].
    apply Hall. reflexivity.
Defined.



(* ===================================================================== *)
(** ** The context field store: the claims                                *)
(* ===================================================================== *)

(** C5: attaching zero fields is the identity: [WithFields] returns the
    handle it was given, nil or not, and leaves the state as it was (no
    array and no context node is created), so the fields read from the
    result are those of the handle. *)
Theorem WithFields_empty_identity (ctx : handle) (fields : slice) (σ : state) :
  load σ fields = [] →
  ∃ h' σ', WithFields ctx fields σ = Ok h' σ'
           ∧ h' = ctx ∧ σ' = σ
           ∧ fields_of σ' h' = fields_of σ ctx
           ∧ FieldsFromContext h' σ' = FieldsFromContext ctx σ.
Proof.
  intros Hf. exists ctx, σ. split; [|done].
  unfold WithFields, bind, len. by rewrite Hf.
Qed.

Lemma WithFields_empty_identity_witness :
  ∃ h' σ',
    WithFields (Some (valueCtx 0 Background fieldsKey (AnyFields (SliceAt 0)))) nil_slice
      (mkState {[0 := [zap_String "existing" "value"]]} 1) = Ok h' σ'
    ∧ h' = Some (valueCtx 0 Background fieldsKey (AnyFields (SliceAt 0)))
    ∧ σ' = mkState {[0 := [zap_String "existing" "value"]]} 1
    ∧ fields_of σ' h' = [zap_String "existing" "value"].
Proof.
  destruct (WithFields_empty_identity
              (Some (valueCtx 0 Background fieldsKey (AnyFields (SliceAt 0))))
              nil_slice
              (mkState {[0 := [zap_String "existing" "value"]]} 1))
    as (h' & σ' & Hrun & -> & -> & Hf & _); [reflexivity|].
  eexists _, _. split; [exact Hrun|]. split; [reflexivity|].
  split; [reflexivity|]. run_concrete.
Defined.

(** C6: two attachments to the same handle are independent.  With
    [h1 = WithFields(h0, F1)] and then [h2 = WithFields(h0, F2)], both
    non-empty: [h0] reads the same fields after each call; [h1] reads the
    same fields after [h2] was made; a key that occurs only in [F2] is not
    among the fields of [h1], and one that occurs only in [F1] is not among
    those of [h2]; and whatever is attached later, to whichever handle,
    [h0], [h1] and [h2] keep reading what they read. *)
Theorem WithFields_independent (σ : state) (c : Context) (F1 F2 : slice) :
  handle_ok σ (Some c) → load σ F1 ≠ [] → load σ F2 ≠ [] →
  ∃ h1 σ1 h2 σ2,
    WithFields (Some c) F1 σ = Ok h1 σ1
    ∧ WithFields (Some c) F2 σ1 = Ok h2 σ2
    ∧ fields_of σ1 (Some c) = fields_of σ (Some c)
    ∧ fields_of σ2 (Some c) = fields_of σ (Some c)
    ∧ fields_of σ2 h1 = fields_of σ1 h1
    ∧ (∀ k, k ∈ keys (load σ F2) → k ∉ keys (load σ F1) →
            k ∉ keys (fields_of σ (Some c)) → k ∉ keys (fields_of σ2 h1))
    ∧ (∀ k, k ∈ keys (load σ F1) → k ∉ keys (load σ F2) →
            k ∉ keys (fields_of σ (Some c)) → k ∉ keys (fields_of σ2 h2))
    ∧ (∀ (x : Context) (G : slice) (h' : handle) (σ3 : state),
         WithFields (Some x) G σ2 = Ok h' σ3 →
         fields_of σ3 (Some c) = fields_of σ (Some c)
         ∧ fields_of σ3 h1 = fields_of σ2 h1
         ∧ fields_of σ3 h2 = fields_of σ2 h2).
Proof.
  intros Hok Hne1 Hne2.
  destruct (WithFields_spec c F1 σ) as (h1 & σ1 & Hrun1 & Hf1 & Hext1 & Hok1 & _).
  destruct (WithFields_spec c F2 σ1) as (h2 & σ2 & Hrun2 & Hf2 & Hext2 & Hok2 & _).
  specialize (Hok1 Hok).
  pose proof (handle_ok_extends _ _ _ Hok Hext1) as Hokc1.
  specialize (Hok2 Hokc1).
  pose proof (fields_of_extends _ _ _ Hok Hext1) as Hc1.
  pose proof (fields_of_extends _ _ _ Hokc1 Hext2) as Hc2.
  pose proof (fields_of_extends _ _ _ Hok1 Hext2) as H12.
  assert (load σ1 F2 = load σ F2) as HF2
    by (apply load_extends; [by apply load_nonempty_allocated|done]).
  exists h1, σ1, h2, σ2.
  split; [done|]. split; [done|]. split; [done|].
  split; [by rewrite Hc2|]. split; [done|].
  split; [|split].
  - intros k _ Hk1 Hk0 (f & Hf & Hfk)%elem_of_keys.
    rewrite H12, Hf1 in Hf. apply merged_elem in Hf as [Hf|Hf].
    + apply Hk0. rewrite <- Hfk. by apply key_elem_of.
    + apply Hk1. rewrite <- Hfk. by apply key_elem_of.
  - intros k _ Hk2 Hk0 (f & Hf & Hfk)%elem_of_keys.
    rewrite Hf2, Hc1, HF2 in Hf. apply merged_elem in Hf as [Hf|Hf].
    + apply Hk0. rewrite <- Hfk. by apply key_elem_of.
    + apply Hk2. rewrite <- Hfk. by apply key_elem_of.
  - intros x G h' σ3 Hrun3.
    pose proof (handle_ok_extends _ _ _ Hokc1 Hext2) as Hokc2.
    pose proof (handle_ok_extends _ _ _ Hok1 Hext2) as Hok12.
    rewrite (WithFields_frame x G σ2 h' σ3 (Some c) Hrun3 Hokc2).
    rewrite (WithFields_frame x G σ2 h' σ3 h1 Hrun3 Hok12).
    rewrite (WithFields_frame x G σ2 h' σ3 h2 Hrun3 Hok2).
    by rewrite Hc2.
Qed.

Lemma WithFields_independent_witness :
  ∃ h1 σ1 h2 σ2,
    WithFields (Some Background) (SliceAt 0)
      (state_of [[zap_Int "x" 1]; [zap_Int "y" 2]]) = Ok h1 σ1
    ∧ WithFields (Some Background) (SliceAt 1) σ1 = Ok h2 σ2
    ∧ ("y" ∉ keys (fields_of σ2 h1))
    ∧ ("x" ∉ keys (fields_of σ2 h2)).
Proof.
  destruct (WithFields_independent
              (state_of [[zap_Int "x" 1]; [zap_Int "y" 2]])
              Background (SliceAt 0) (SliceAt 1))
    as (h1 & σ1 & h2 & σ2 & Hrun1 & Hrun2 & _ & _ & _ & Hy & Hx & _).
  - exact I.
  - vm_compute. intros Heq. discriminate Heq.
  - vm_compute. intros Heq. discriminate Heq.
  - exists h1, σ1, h2, σ2. split; [exact Hrun1|]. split; [exact Hrun2|].
    split.
    + apply Hy.
      * vm_compute. by left.
      * vm_compute. by intros ?%list_elem_of_singleton.
      * vm_compute. apply not_elem_of_nil.
    + apply Hx.
      * vm_compute. by left.
      * vm_compute. by intros ?%list_elem_of_singleton.
      * vm_compute. apply not_elem_of_nil.
Defined.

(** C7: [FieldsFromContext] hands out a copy.  For a handle that carries
    fields, the slice it returns is a new array ([l] was not in use) holding
    the handle's fields.  Whatever the caller then writes to that array,
    every handle of the state the copy was taken in (the handle itself, its
    ancestors, the handles derived from it) reads the fields it read
    before, a further [FieldsFromContext] returns them, and a handle
    derived afterwards by [WithFields] is built from them. *)
Theorem FieldsFromContext_defensive_copy (σ : state) (c : Context) (s : slice) :
  stored (Some c) = Some s → allocated σ s →
  ∃ l σ1,
    FieldsFromContext (Some c) σ = Ok (SliceAt l) σ1
    ∧ heap σ !! l = None
    ∧ SliceAt l ≠ s
    ∧ load σ1 (SliceAt l) = fields_of σ (Some c)
    ∧ ∀ arr : list Field,
        (∀ g : handle,
           handle_ok σ g →
           fields_of (overwrite (SliceAt l) arr σ1) g = fields_of σ g
           ∧ ∃ r σ3,
               FieldsFromContext g (overwrite (SliceAt l) arr σ1) = Ok r σ3
               ∧ load σ3 r = fields_of σ g)
        ∧ (∀ F : slice,
             allocated σ F →
             ∃ h' σ3,
               WithFields (Some c) F (overwrite (SliceAt l) arr σ1) = Ok h' σ3
               ∧ fields_of σ3 h' = merged (fields_of σ (Some c)) (load σ F)).
Proof.
  intros Hs Ha.
  pose proof (FieldsFromContext_run (Some c) σ) as Hrun. rewrite Hs in Hrun.
  destruct Hrun as (l & Hl & Hrun).
  assert (extends σ (set_heap (<[l := load σ s]> (heap σ)) σ)) as Hext
    by (by apply extends_insert).
  eexists l, _. split; [exact Hrun|]. split; [done|]. split.
  { intros <-. simpl in Ha. rewrite Hl in Ha. by destruct Ha. }
  split.
  { unfold fields_of. rewrite Hs. simpl. by rewrite lookup_insert_eq. }
  intros arr. split.
  - intros g Hg.
    pose proof (fields_of_overwrite σ _ g l arr Hg Hext Hl) as Hfg.
    split; [done|].
    destruct (FieldsFromContext_spec g
                (overwrite (SliceAt l) arr (set_heap (<[l := load σ s]> (heap σ)) σ)))
      as (r & σ3 & Hrun3 & Hr & _).
    exists r, σ3. split; [done|]. by rewrite Hr.
  - intros F HF.
    destruct (WithFields_spec c F
                (overwrite (SliceAt l) arr (set_heap (<[l := load σ s]> (heap σ)) σ)))
      as (h' & σ3 & Hrun3 & Hf3 & _).
    exists h', σ3. split; [done|]. rewrite Hf3. f_equal.
    + apply fields_of_overwrite; [|done|done].
      unfold handle_ok. by rewrite Hs.
    + by apply load_overwrite.
Qed.

Lemma FieldsFromContext_defensive_copy_witness :
  ∃ l σ1,
    FieldsFromContext (Some (valueCtx 0 Background fieldsKey (AnyFields (SliceAt 0))))
      (mkState {[0 := [zap_Int "x" 1]]} 1) = Ok (SliceAt l) σ1
    ∧ SliceAt l ≠ SliceAt 0
    ∧ load σ1 (SliceAt l) = [zap_Int "x" 1]
    ∧ fields_of (overwrite (SliceAt l) [zap_Int "x" 99] σ1)
        (Some (valueCtx 0 Background fieldsKey (AnyFields (SliceAt 0))))
      = [zap_Int "x" 1].
Proof.
  destruct (FieldsFromContext_defensive_copy
              (mkState {[0 := [zap_Int "x" 1]]} 1)
              (valueCtx 0 Background fieldsKey (AnyFields (SliceAt 0)))
              (SliceAt 0))
    as (l & σ1 & Hrun & _ & Hne & Hcopy & Hkeep).
  - reflexivity.
  - vm_compute. eauto.
  - exists l, σ1. split; [exact Hrun|]. split; [exact Hne|].
    split; [exact Hcopy|].
    destruct (Hkeep [zap_Int "x" 99]) as [Hg _].
    apply (Hg (Some (valueCtx 0 Background fieldsKey (AnyFields (SliceAt 0))))).
    vm_compute. eauto.
Defined.

(** C8, at the input where it fails: [WithFields] on a nil handle with one
    field passes the nil handle on to [context.WithValue], which panics. *)
Example WithFields_nil_handle_panics :
  WithFields None (SliceAt 0) (state_of [[zap_String "k" "v"]])
  = Panic "cannot create context from nil parent".
Proof.
  unfold WithFields, bind, len. simpl. reflexivity.
Qed.


(* ===================================================================== *)
(** ** Further properties                                                 *)
(* ===================================================================== *)

(** No key is lost: every key of [existing] and every key of [incoming]
    occurs in the result of [MergeFields]. *)
Theorem MergeFields_keeps_every_key (σ : state) (e n : slice) :
  ∃ r σ', MergeFields e n σ = Ok r σ'
          ∧ Forall (λ k, k ∈ keys (load σ' r)) (keys (load σ e) ++ keys (load σ n)).
Proof.
  destruct (MergeFields_spec e n σ) as (r & σ' & Hrun & Hr & _).
  exists r, σ'. split; [done|]. rewrite Hr.
  apply Forall_forall. intros k [Hk|Hk]%elem_of_app.
  - by apply merged_keys_old.
  - by apply merged_keys_new.
Qed.

(** The slice [WithFields] stores in a handle that had no fields is the
    caller's slice itself, not a copy: the new handle reads whatever that
    array holds, also after the caller has overwritten it. *)
Theorem WithFields_stores_the_argument (σ : state) (c : Context) (fields : slice) :
  fields_of σ (Some c) = [] → load σ fields ≠ [] →
  ∃ h' σ', WithFields (Some c) fields σ = Ok h' σ'
           ∧ stored h' = Some fields
           ∧ ∀ arr, fields_of (overwrite fields arr σ') h' = arr.
Proof.
  intros Hc Hf.
  destruct (FieldsFromContext_spec (Some c) σ) as (r & σ1 & Hrun & Hr & _).
  unfold WithFields. unfold bind at 1. unfold len at 1.
  rewrite bool_decide_eq_false_2 by (by destruct (load σ fields)).
  unfold bind at 1. rewrite Hrun.
  unfold bind at 1. unfold len at 1. rewrite Hr, Hc. simpl.
  eexists _, _. split; [done|]. split; [done|].
  intros arr. unfold fields_of. rewrite stored_valueCtx.
  destruct fields as [|l]; [done|]. simpl. by rewrite lookup_insert_eq.
Qed.

Lemma WithFields_stores_the_argument_witness :
  ∃ h' σ',
    WithFields (Some Background) (SliceAt 0) (state_of [[zap_Int "x" 1]]) = Ok h' σ'
    ∧ stored h' = Some (SliceAt 0)
    ∧ fields_of (overwrite (SliceAt 0) [zap_Int "x" 99] σ') h' = [zap_Int "x" 99].
Proof.
  destruct (WithFields_stores_the_argument
              (state_of [[zap_Int "x" 1]]) Background (SliceAt 0))
    as (h' & σ' & Hrun & Hs & Harr).
  - reflexivity.
  - vm_compute. intros Heq. discriminate Heq.
  - exists h', σ'. split; [exact Hrun|]. split; [exact Hs|]. apply Harr.
Defined.

(* ===================================================================== *)
(** ** MergeFields: aliasing, lookups, capacity                           *)
(* ===================================================================== *)

(** [MergeFields] only reads its arguments: both hold the same elements
    afterwards and every array that existed is untouched.  The slice it
    returns is [newFields] itself when [existingFields] is empty (nothing
    is allocated), [existingFields] itself when only [newFields] is empty,
    and otherwise a new array. *)
Theorem MergeFields_reads_only (σ : state) (e n : slice) :
  ∃ r σ', MergeFields e n σ = Ok r σ'
          ∧ extends σ σ'
          ∧ next_ctx σ' = next_ctx σ
          ∧ load σ' e = load σ e
          ∧ load σ' n = load σ n
          ∧ ((load σ e = [] ∧ r = n ∧ σ' = σ)
             ∨ (load σ e ≠ [] ∧ load σ n = [] ∧ r = e ∧ σ' = σ)
             ∨ (load σ e ≠ [] ∧ load σ n ≠ []
                ∧ ∃ l, r = SliceAt l ∧ heap σ !! l = None)).
Proof.
  destruct (decide (load σ e = [])) as [He|He].
  { rewrite MergeFields_nil_l by done. exists n, σ.
    split; [done|]. split; [apply extends_refl|].
    split; [done|]. split; [done|]. split; [done|]. by left. }
  destruct (decide (load σ n = [])) as [Hn|Hn].
  { rewrite MergeFields_nil_r by done. exists e, σ.
    split; [done|]. split; [apply extends_refl|].
    split; [done|]. split; [done|]. split; [done|]. right; by left. }
  destruct (MergeFields_loops e n σ He Hn) as (l & Hl & ->).
  assert (extends σ (set_heap (<[l := merge_loops (load σ e) (load σ n)]> (heap σ)) σ))
    as Hext by (by apply extends_insert).
  eexists _, _. split; [done|]. split; [done|]. split; [done|].
  split; [apply load_extends; [by apply load_nonempty_allocated|done]|].
  split; [apply load_extends; [by apply load_nonempty_allocated|done]|].
  right; right. eauto.
Qed.

Lemma with_key_absent (k : string) (fs : list Field) :
  k ∉ keys fs → with_key k fs = [].
Proof.
  intros Hk. apply filter_none. intros g Hg Hkg.
  apply Hk. rewrite <- Hkg. by apply key_elem_of.
Qed.

(** Reading the merge by key, for unique-keyed arguments: under a key of
    [N] the result holds [N]'s field, under any other key what [E] holds. *)
Lemma merged_lookup (E N : list Field) (k : string) :
  unique_keyed E → unique_keyed N →
  with_key k (merged E N)
  = if decide (k ∈ keys N) then with_key k N else with_key k E.
Proof.
  intros HE HN.
  assert (unique_keyed (merged E N)) as Hu
    by (apply merged_unique_keyed; [done|by right]).
  destruct (decide (k ∈ keys N)) as [Hin|Hnot].
  - apply elem_of_keys in Hin as (fn & Hfn & <-).
    rewrite (with_key_unique N) by done. by apply merged_with_key.
  - destruct (decide (k ∈ keys E)) as [HinE|HnotE].
    + apply elem_of_keys in HinE as (fe & Hfe & <-).
      rewrite (with_key_unique E) by done.
      apply with_key_unique; [done|].
      rewrite merged_filters by done. unfold two_pass_equal_kept.
      apply elem_of_app. left. apply list_elem_of_filter. split; [by left|done].
    + rewrite (with_key_absent k E) by done. apply with_key_absent.
      intros (f & Hf & <-)%elem_of_keys.
      apply merged_elem in Hf as [Hf|Hf].
      * by apply HnotE, key_elem_of.
      * by apply Hnot, key_elem_of.
Qed.

(** Last writer wins, key by key: for unique-keyed [existing] and
    [incoming], the fields the result of [MergeFields] holds under a key
    are those [incoming] holds under it when the key occurs in [incoming],
    and those [existing] holds under it otherwise; a field of [existing]
    whose key [incoming] does not mention is kept with its value. *)
Theorem MergeFields_last_writer_wins (σ : state) (e n : slice) :
  unique_keyed (load σ e) → unique_keyed (load σ n) →
  ∃ r σ', MergeFields e n σ = Ok r σ'
          ∧ ∀ k, with_key k (load σ' r)
                 = if decide (k ∈ keys (load σ n))
                   then with_key k (load σ n)
                   else with_key k (load σ e).
Proof.
  intros HE HN.
  destruct (MergeFields_spec e n σ) as (r & σ' & Hrun & Hr & _).
  exists r, σ'. split; [done|]. intros k. rewrite Hr. by apply merged_lookup.
Qed.

Lemma MergeFields_last_writer_wins_witness :
  ∃ r σ',
    MergeFields (SliceAt 0) (SliceAt 1)
      (state_of [[zap_String "request_id" "123"; zap_String "service" "api"];
                 [zap_Int "items" 5; zap_String "service" "api-v2"]]) = Ok r σ'
    ∧ with_key "service" (load σ' r) = [zap_String "service" "api-v2"]
    ∧ with_key "request_id" (load σ' r) = [zap_String "request_id" "123"].
Proof.
  destruct (MergeFields_last_writer_wins
              (state_of [[zap_String "request_id" "123"; zap_String "service" "api"];
                         [zap_Int "items" 5; zap_String "service" "api-v2"]])
              (SliceAt 0) (SliceAt 1))
    as (r & σ' & Hrun & Hk); [solve_unique_keyed|solve_unique_keyed|].
  exists r, σ'. split; [exact Hrun|]. split.
  - rewrite (Hk "service"). run_concrete.
  - rewrite (Hk "request_id"). run_concrete.
Defined.

(** The keys the loops emit are the keys of the map they start from. *)
Lemma merge_loops_keys_dom (E N : list Field) (k : string) :
  k ∈ keys (merge_loops E N) ↔ k ∈ dom (merge_map E N).
Proof.
  rewrite elem_of_dom. split.
  - intros (f & Hf & <-)%elem_of_keys.
    apply merge_loops_elem in Hf as [Hf|Hf].
    + by apply merge_map_old, key_elem_of.
    + destruct (merge_map_new E N (Key f) (key_elem_of _ _ Hf)) as (g & -> & _).
      eauto.
  - intros [f Hf].
    pose proof Hf as [[Hn <-]|(_ & He & <-)]%merge_map_lookup.
    + by apply merge_loops_keys_new, key_elem_of.
    + by apply merge_loops_keys_old, key_elem_of.
Qed.

Lemma merge_loops_fills_map (E N : list Field) :
  length (merge_loops E N) = size (merge_map E N).
Proof.
  rewrite <- size_dom. unfold size, set_size. simpl.
  transitivity (length (keys (merge_loops E N))).
  { unfold keys. by rewrite length_fmap. }
  apply Permutation_length, NoDup_Permutation.
  - apply merge_loops_unique_keyed.
  - apply NoDup_elements.
  - intros k. rewrite elem_of_elements. apply merge_loops_keys_dom.
Qed.

(** On the path through the loops the result holds exactly one field per
    entry of [fieldMap]: the capacity [len(fieldMap)] given to [make] is
    the final length, so no [append] outgrows the array; and that number
    is the number of distinct keys of the two arguments. *)
Theorem MergeFields_fills_capacity (σ : state) (e n : slice) :
  load σ e ≠ [] → load σ n ≠ [] →
  ∃ r σ', MergeFields e n σ = Ok r σ'
          ∧ length (load σ' r) = size (merge_map (load σ e) (load σ n))
          ∧ length (load σ' r)
            = length (remove_dups (keys (load σ e) ++ keys (load σ n))).
Proof.
  intros He Hn.
  destruct (MergeFields_spec e n σ) as (r & σ' & Hrun & Hr & _).
  exists r, σ'. split; [done|]. rewrite Hr, merged_loops by done.
  split; [apply merge_loops_fills_map|].
  transitivity (length (keys (merge_loops (load σ e) (load σ n)))).
  { unfold keys. by rewrite length_fmap. }
  apply Permutation_length, NoDup_Permutation.
  - apply merge_loops_unique_keyed.
  - apply NoDup_remove_dups.
  - intros k. rewrite elem_of_remove_dups, elem_of_app. split.
    + intros (f & Hf & <-)%elem_of_keys.
      apply merge_loops_elem in Hf as [Hf|Hf]; [left|right]; by apply key_elem_of.
    + intros [Hk|Hk]; [by apply merge_loops_keys_old|by apply merge_loops_keys_new].
Qed.

Lemma MergeFields_fills_capacity_witness :
  ∃ r σ',
    MergeFields (SliceAt 0) (SliceAt 1)
      (state_of [[zap_Int "a" 1; zap_Int "b" 2]; [zap_Int "b" 20; zap_Int "b" 21]])
    = Ok r σ'
    ∧ length (load σ' r) = 2.
Proof.
  destruct (MergeFields_fills_capacity
              (state_of [[zap_Int "a" 1; zap_Int "b" 2]; [zap_Int "b" 20; zap_Int "b" 21]])
              (SliceAt 0) (SliceAt 1))
    as (r & σ' & Hrun & _ & Hlen).
  - vm_compute. intros Heq. discriminate Heq.
  - vm_compute. intros Heq. discriminate Heq.
  - exists r, σ'. split; [exact Hrun|]. rewrite Hlen. run_concrete.
Defined.

(* ===================================================================== *)
(** ** WithFields: accumulation, round trips, the context around it       *)
(* ===================================================================== *)

(** [WithFields] accumulates and overwrites, as its comment says: the keys
    of the new handle are those of the old handle together with those of
    the attached fields; a field of the new handle whose key occurs among
    the attached fields is one of the attached fields; and every field of
    the new handle comes from the old handle or from the attached ones. *)
Theorem WithFields_accumulates (σ : state) (c : Context) (fields : slice) :
  ∃ h' σ', WithFields (Some c) fields σ = Ok h' σ'
           ∧ (∀ k, k ∈ keys (fields_of σ' h')
                   ↔ k ∈ keys (fields_of σ (Some c)) ∨ k ∈ keys (load σ fields))
           ∧ Forall (λ f, Key f ∈ keys (load σ fields) → f ∈ load σ fields)
                    (fields_of σ' h')
           ∧ Forall (λ f, f ∈ fields_of σ (Some c) ∨ f ∈ load σ fields)
                    (fields_of σ' h').
Proof.
  destruct (WithFields_spec c fields σ) as (h' & σ' & Hrun & Hf & _).
  exists h', σ'. split; [done|]. rewrite Hf. split; [|split].
  - intros k. split.
    + intros (f & Hin & <-)%elem_of_keys.
      apply merged_elem in Hin as [Hin|Hin]; [left|right]; by apply key_elem_of.
    + intros [Hk|Hk]; [by apply merged_keys_old|by apply merged_keys_new].
  - apply Forall_forall. intros f. apply merged_override.
  - apply Forall_forall. intros f. apply merged_elem.
Qed.

Lemma merged_disjoint (E N : list Field) :
  unique_keyed E → unique_keyed N →
  (∀ k, k ∈ keys N → k ∉ keys E) → merged E N = E ++ N.
Proof.
  intros HE HN Hd. rewrite merged_filters by done.
  unfold two_pass_equal_kept. f_equal.
  - apply filter_all. intros e He. left. intros Hk.
    by apply (Hd _ Hk), key_elem_of.
  - apply filter_all. intros n Hn He.
    apply (Hd (Key n)); by apply key_elem_of.
Qed.

(** Attach, then read back.  For a handle that is not nil, [WithFields]
    followed by [FieldsFromContext] returns: the attached fields as they
    are when the handle had none; the handle's fields when nothing was
    attached; and, when both collections are unique-keyed and share no
    key, the handle's fields followed by the attached ones, each in its
    order. *)
Theorem WithFields_round_trip (σ : state) (c : Context) (fields : slice) :
  ∃ h' σ' r σ'',
    WithFields (Some c) fields σ = Ok h' σ'
    ∧ FieldsFromContext h' σ' = Ok r σ''
    ∧ (fields_of σ (Some c) = [] → load σ'' r = load σ fields)
    ∧ (load σ fields = [] → load σ'' r = fields_of σ (Some c))
    ∧ (unique_keyed (fields_of σ (Some c)) → unique_keyed (load σ fields) →
       (∀ k, k ∈ keys (load σ fields) → k ∉ keys (fields_of σ (Some c))) →
       load σ'' r = fields_of σ (Some c) ++ load σ fields).
Proof.
  destruct (WithFields_spec c fields σ) as (h' & σ' & Hrun & Hf & _).
  destruct (FieldsFromContext_spec h' σ') as (r & σ'' & Hrun' & Hr & _).
  exists h', σ', r, σ''. split; [done|]. split; [done|].
  rewrite Hr, Hf. split; [|split].
  - intros ->. apply merged_nil_l.
  - intros ->. apply merged_nil_r.
  - apply merged_disjoint.
Qed.

Lemma WithFields_round_trip_witness :
  ∃ h1 σ1 h2 σ2 r σ3,
    WithFields (Some Background) (SliceAt 0)
      (state_of [[zap_String "request_id" "abc123"; zap_String "user_id" "user456"];
                 [zap_String "session_id" "session789"; zap_Bool "authenticated" true]])
    = Ok h1 σ1
    ∧ WithFields h1 (SliceAt 1) σ1 = Ok h2 σ2
    ∧ FieldsFromContext h2 σ2 = Ok r σ3
    ∧ load σ3 r
      = [zap_String "request_id" "abc123"; zap_String "user_id" "user456";
         zap_String "session_id" "session789"; zap_Bool "authenticated" true].
Proof.
  eexists _, _. 
  destruct (WithFields_round_trip
              (mkState (heap (state_of
                 [[zap_String "request_id" "abc123"; zap_String "user_id" "user456"];
                  [zap_String "session_id" "session789"; zap_Bool "authenticated" true]])) 1)
              (valueCtx 0 Background fieldsKey (AnyFields (SliceAt 0)))
              (SliceAt 1))
    as (h2 & σ2 & r & σ3 & Hrun2 & Hrun3 & _ & _ & Happ).
  exists h2, σ2, r, σ3.
  split; [run_concrete|]. split; [exact Hrun2|]. split; [exact Hrun3|].
  rewrite Happ.
  - run_concrete.
  - solve_unique_keyed.
  - solve_unique_keyed.
  - intros k Hk. vm_compute in Hk.
    apply elem_of_cons in Hk as [->|Hk];
      [|apply list_elem_of_singleton in Hk as ->];
      apply (bool_decide_unpack _); vm_compute; exact I.
Defined.

Lemma merged_subset (E N : list Field) :
  unique_keyed E → (∀ f, f ∈ N → f ∈ E) → merged E N = E.
Proof.
  intros HE Hsub.
  destruct (merged_cases E N) as [[-> ->]|[[_ ->]|(_ & _ & ->)]]; [|done|].
  - destruct N as [|f N]; [done|].
    exfalso. apply (not_elem_of_nil f), Hsub. by left.
  - rewrite merge_loops_eq.
    assert ((keep_existing E (merge_map E N) []).1 = E) as Hkept.
    { rewrite kept_filter by done. apply filter_all. intros e He.
      destruct (decide (Key e ∈ keys N)) as [Hin|Hnot].
      - destruct (merge_map_new E N (Key e) Hin) as (g & Hg & HgN & Hgk).
        rewrite Hg. f_equal. apply (unique_keyed_inj E); auto.
      - unfold merge_map. rewrite add_fields_notin by done.
        by apply add_fields_unique. }
    rewrite Hkept.
    destruct (add_new N (keep_existing E (merge_map E N) []).2 []).1
      as [|f rest] eqn:Hadded; [by rewrite app_nil_r|].
    exfalso.
    assert (f ∈ (add_new N (keep_existing E (merge_map E N) []).2 []).1) as Hf
      by (rewrite Hadded; by left).
    apply added_elem in Hf as [HfN [g Hg]].
    rewrite kept_map, Hkept in Hg.
    rewrite decide_True in Hg; [done|]. by apply key_elem_of, Hsub.
Qed.

(** Attaching fields the handle already carries, unchanged, changes
    nothing in the collection: for a handle with a unique-keyed collection
    and attached fields that are all among its fields, the new handle
    reads the same fields in the same order. *)
Theorem WithFields_reattach_unchanged (σ : state) (c : Context) (fields : slice) :
  unique_keyed (fields_of σ (Some c)) →
  (∀ f, f ∈ load σ fields → f ∈ fields_of σ (Some c)) →
  ∃ h' σ', WithFields (Some c) fields σ = Ok h' σ'
           ∧ fields_of σ' h' = fields_of σ (Some c).
Proof.
  intros HE Hsub.
  destruct (WithFields_spec c fields σ) as (h' & σ' & Hrun & Hf & _).
  exists h', σ'. split; [done|]. rewrite Hf. by apply merged_subset.
Qed.

Lemma WithFields_reattach_unchanged_witness :
  ∃ h' σ',
    WithFields (Some (valueCtx 0 Background fieldsKey (AnyFields (SliceAt 0))))
      (SliceAt 1)
      (mkState (heap (state_of [[zap_Int "a" 1; zap_Int "b" 2]; [zap_Int "b" 2]])) 1)
    = Ok h' σ'
    ∧ fields_of σ' h' = [zap_Int "a" 1; zap_Int "b" 2].
Proof.
  apply (WithFields_reattach_unchanged
           (mkState (heap (state_of [[zap_Int "a" 1; zap_Int "b" 2]; [zap_Int "b" 2]])) 1)
           (valueCtx 0 Background fieldsKey (AnyFields (SliceAt 0)))
           (SliceAt 1)).
  - solve_unique_keyed.
  - intros f Hf. vm_compute in Hf. vm_compute.
    apply list_elem_of_singleton in Hf as ->. right. by left.
Defined.

(** [WithFields] leaves the rest of the context alone: the handle it
    returns answers every lookup under another package's key as the handle
    it was given does; and when at least one field is attached it is one
    new node, a child of that handle, holding a slice under [fieldsKey]. *)
Theorem WithFields_keeps_other_values (σ : state) (c : Context) (fields : slice) :
  ∃ c' σ', WithFields (Some c) fields σ = Ok (Some c') σ'
           ∧ (∀ n, Value c' (otherKey n) = Value c (otherKey n))
           ∧ (load σ fields ≠ [] →
              ∃ s, c' = valueCtx (next_ctx σ) c fieldsKey (AnyFields s)
                   ∧ next_ctx σ' = S (next_ctx σ)).
Proof.
  destruct (WithFields_spec c fields σ)
    as (h' & σ' & Hrun & _ & _ & _ & Hempty & Hnew).
  destruct (decide (load σ fields = [])) as [Hf|Hf].
  - destruct (Hempty Hf) as [-> ->]. exists c, σ. split; [done|]. split; done.
  - destruct (Hnew Hf) as (s & -> & Hn). eexists _, σ'. split; [done|].
    split; [done|]. intros _. eauto.
Qed.

(* ===================================================================== *)
(** ** Logger: what the logging methods hand to zap                       *)
(* ===================================================================== *)

(** The seven methods share one body. *)
Lemma Logger_log_body (level : Level) (l : option Logger) (ctx : handle)
    (msg : string) (fields : slice) :
  Logger_log level l ctx msg fields
  = (do contextFields <- FieldsFromContext ctx;
     do n <- len contextFields;
     if bool_decide (n = 0) then zap_call l level msg fields else
     do allFields <- MergeFields contextFields fields;
     zap_call l level msg allFields).
Proof. by destruct level. Qed.

Lemma Logger_log_spec (level : Level) (lg : Logger) (ctx : handle)
    (msg : string) (fields : slice) (σ : state) :
  allocated σ fields →
  ∃ a σ', Logger_log level (Some lg) ctx msg fields σ
          = Ok (mkCall (embedded lg) level msg a) σ'
          ∧ load σ' a = merged (fields_of σ ctx) (load σ fields)
          ∧ extends σ σ'
          ∧ next_ctx σ' = next_ctx σ
          ∧ (fields_of σ ctx = [] → a = fields)
          ∧ (stored ctx = None → σ' = σ)
          ∧ (fields_of σ ctx ≠ [] → ∃ l, a = SliceAt l ∧ heap σ !! l = None).
Proof.
  intros Hfa. rewrite Logger_log_body.
  pose proof (FieldsFromContext_run ctx σ) as Hrun. unfold fields_of.
  destruct (stored ctx) as [s|] eqn:Hs.
  - destruct Hrun as (l & Hl & Hrun).
    set (σ1 := set_heap (<[l := load σ s]> (heap σ)) σ) in *.
    assert (extends σ σ1) as Hext1 by (by apply extends_insert).
    assert (load σ1 (SliceAt l) = load σ s) as Hcopy
      by (simpl; by rewrite lookup_insert_eq).
    assert (load σ1 fields = load σ fields) as Hfields by (by apply load_extends).
    unfold bind at 1. rewrite Hrun.
    unfold bind at 1. unfold len at 1. rewrite Hcopy.
    destruct (decide (load σ s = [])) as [He|He].
    + rewrite He. simpl. exists fields, σ1. split; [done|].
      split; [done|]. split; [done|]. split; [done|].
      split; [done|]. split; [done|]. done.
    + rewrite bool_decide_eq_false_2 by (by destruct (load σ s)).
      assert (load σ1 (SliceAt l) ≠ []) as He1 by (by rewrite Hcopy).
      destruct (decide (load σ fields = [])) as [Hn|Hn].
      * unfold bind at 1.
        rewrite MergeFields_nil_r by (done || by rewrite Hfields).
        exists (SliceAt l), σ1. split; [done|].
        rewrite Hn, merged_nil_r. split; [done|]. split; [done|].
        split; [done|]. split; [done|]. split; [done|]. eauto.
      * assert (load σ1 fields ≠ []) as Hn1 by (by rewrite Hfields).
        destruct (MergeFields_loops (SliceAt l) fields σ1 He1 Hn1)
          as (l' & Hl' & Hrun2).
        unfold bind at 1. rewrite Hrun2.
        eexists (SliceAt l'), _. split; [done|].
        split.
        { simpl. rewrite lookup_insert_eq. simpl.
          rewrite merged_loops by done. f_equal.
          - by rewrite lookup_insert_eq.
          - exact Hfields. }
        split.
        { apply (extends_trans σ σ1); [done|]. by apply extends_insert. }
        split; [done|]. split; [done|]. split; [done|].
        intros _. exists l'. split; [done|].
        simpl in Hl'. by apply lookup_insert_None in Hl' as [? _].
  - unfold bind at 1. rewrite Hrun. simpl.
    exists fields, σ. split; [done|]. split; [done|].
    split; [apply extends_refl|]. split; [done|].
    split; [done|]. split; done.
Qed.



(** What logging leaves alone.  A logging method creates no context node
    and writes to no array that existed: every valid slice and every
    handle reads afterwards what it read before.  With a handle that
    carries nothing under [fieldsKey] (the nil handle included) the state
    is not changed at all; with a handle that has fields, the slice handed
    to zap is a new array, never the one the context stores. *)
Theorem Logger_log_frame (level : Level) (lg : Logger) (ctx : handle)
    (msg : string) (fields : slice) (σ : state) :
  allocated σ fields →
  ∃ call σ',
    Logger_log level (Some lg) ctx msg fields σ = Ok call σ'
    ∧ next_ctx σ' = next_ctx σ
    ∧ (∀ s, allocated σ s → load σ' s = load σ s)
    ∧ (∀ g, handle_ok σ g → fields_of σ' g = fields_of σ g)
    ∧ (stored ctx = None → σ' = σ)
    ∧ (fields_of σ ctx ≠ [] →
       ∃ l, call_fields call = SliceAt l ∧ heap σ !! l = None).
Proof.
  intros Hfa.
  destruct (Logger_log_spec level lg ctx msg fields σ Hfa)
    as (a & σ' & Hrun & _ & Hext & Hn & _ & Hsame & Hfresh).
  eexists _, σ'. split; [exact Hrun|]. simpl.
  split; [done|]. split; [|split; [|split; done]].
  - intros s Hs. by apply load_extends.
  - intros g Hg. by apply fields_of_extends.
Qed.

Lemma Logger_log_frame_witness :
  ∃ call σ',
    Logger_Info (New 7) None "debug message" (SliceAt 0)
      (state_of [[zap_Int "count" 42]]) = Ok call σ'
    ∧ σ' = state_of [[zap_Int "count" 42]].
Proof.
  destruct (Logger_log_frame InfoLevel (mkLogger 7) None "debug message" (SliceAt 0)
              (state_of [[zap_Int "count" 42]]))
    as (call & σ' & Hrun & _ & _ & _ & Hsame & _).
  - vm_compute. eauto.
  - exists call, σ'. split; [exact Hrun|]. apply Hsame. reflexivity.
Defined.

(** Attach, then log.  Fields attached to a handle with [WithFields] are
    part of every later log call made with the new handle: the call
    carries exactly the keys of the old handle's fields, of the attached
    fields and of the call-site fields; under a call-site key it carries
    the call-site field, and under a key that was attached and is not a
    call-site key, the attached field. *)
Theorem Logger_log_after_WithFields (level : Level) (lg : Logger) (c : Context)
    (attached : slice) (msg : string) (fields : slice) (σ : state) :
  allocated σ fields →
  ∃ h' σ1 call σ2,
    WithFields (Some c) attached σ = Ok h' σ1
    ∧ Logger_log level (Some lg) h' msg fields σ1 = Ok call σ2
    ∧ (∀ k, k ∈ keys (load σ2 (call_fields call))
            ↔ k ∈ keys (fields_of σ (Some c))
              ∨ k ∈ keys (load σ attached) ∨ k ∈ keys (load σ fields))
    ∧ Forall (λ f, Key f ∈ keys (load σ fields) → f ∈ load σ fields)
             (load σ2 (call_fields call))
    ∧ Forall (λ f, Key f ∈ keys (load σ attached) →
                   Key f ∉ keys (load σ fields) → f ∈ load σ attached)
             (load σ2 (call_fields call)).
Proof.
  intros Hfa.
  destruct (WithFields_spec c attached σ) as (h' & σ1 & Hrun1 & Hf1 & Hext1 & _).
  assert (allocated σ1 fields) as Hfa1 by (by apply (allocated_extends σ)).
  assert (load σ1 fields = load σ fields) as Hfields by (by apply load_extends).
  destruct (Logger_log_spec level lg h' msg fields σ1 Hfa1)
    as (a & σ2 & Hrun2 & Ha & _).
  eexists h', σ1, _, σ2. split; [exact Hrun1|]. split; [exact Hrun2|].
  simpl. rewrite Ha, Hf1, Hfields. split; [|split].
  - intros k. split.
    + intros (f & Hin & <-)%elem_of_keys.
      apply merged_elem in Hin as [Hin|Hin];
        [|right; right; by apply key_elem_of].
      apply merged_elem in Hin as [Hin|Hin];
        [left|right; left]; by apply key_elem_of.
    + intros [Hk|[Hk|Hk]].
      * by apply merged_keys_old, merged_keys_old.
      * by apply merged_keys_old, merged_keys_new.
      * by apply merged_keys_new.
  - apply Forall_forall. intros f. apply merged_override.
  - apply Forall_forall. intros f Hin Hk Hnk.
    apply merged_elem in Hin as [Hin|Hin].
    + by apply (merged_override (fields_of σ (Some c))).
    + exfalso. by apply Hnk, key_elem_of.
Qed.

Lemma Logger_log_after_WithFields_witness :
  ∃ h' σ1 call σ2,
    WithFields (Some Background) (SliceAt 0)
      (state_of [[zap_String "request_id" "123"; zap_String "user_id" "456"];
                 [zap_String "action" "test"]]) = Ok h' σ1
    ∧ Logger_Info (New 7) h' "test message" (SliceAt 1) σ1 = Ok call σ2
    ∧ load σ2 (call_fields call)
      = [zap_String "request_id" "123"; zap_String "user_id" "456";
         zap_String "action" "test"].
Proof.
  destruct (Logger_log_after_WithFields InfoLevel (mkLogger 7) Background
              (SliceAt 0) "test message" (SliceAt 1)
              (state_of [[zap_String "request_id" "123"; zap_String "user_id" "456"];
                         [zap_String "action" "test"]]))
    as (h' & σ1 & call & σ2 & Hrun1 & Hrun2 & _).
  - vm_compute. eauto.
  - exists h', σ1, call, σ2. split; [exact Hrun1|].
    vm_compute in Hrun1. injection Hrun1 as <- <-.
    split; [exact Hrun2|].
    vm_compute in Hrun2. injection Hrun2 as <- <-. run_concrete.
Defined.
